(** * Discord-Markdown-Formatter: selection transforms, URL sanitizer,
      timestamp rule and relative-time formatting

    A shallow embedding of [src/lib/selection.ts], [src/lib/sanitize.ts],
    [src/lib/time.ts] and the timestamp parts of [src/lib/markdown.ts].

    Modelling conventions.
    - A JavaScript string is the list of its UTF-16 code units.
    - A JavaScript number that holds an index, a length or a count of
      seconds is a mathematical integer ([Z]); this is exact as long as
      the values stay inside the safe-integer range of a double.
    - The reading of the ambient clock ([Date.now()], milliseconds) and the
      host's locale formatting are explicit parameters. *)

From Stdlib Require Import Ascii String DecimalString.
From Stdlib Require DecimalPos.
From Stdlib Require Import List ZArith NArith Lia Bool.
Import ListNotations.
Open Scope Z_scope.

(* ====================================================================== *)
(** ** The string primitives of the host language *)
(* ====================================================================== *)

Module JS.

Definition code_unit := N.
Definition jsstring := list code_unit.

(** An ASCII literal of the source, as code units. *)
Definition lit (s : string) : jsstring :=
  map N_of_ascii (list_ascii_of_string s).

(** [s.length], for strings and arrays alike *)
Definition len {A : Type} (s : list A) : Z := Z.of_nat (length s).

(** [a === b] on strings *)
Fixpoint str_eqb (a b : jsstring) : bool :=
  match a, b with
  | [], [] => true
  | x :: a', y :: b' => N.eqb x y && str_eqb a' b'
  | _, _ => false
  end.

Definition is_some {A : Type} (o : option A) : bool :=
  match o with Some _ => true | None => false end.

(** A string used as a condition: only the empty string is falsy. *)
Definition truthy (s : jsstring) : bool :=
  match s with [] => false | _ => true end.

(** Relative index resolution shared by [slice]: a negative index counts
    from the end, and everything is clamped to [0, n]. *)
Definition rel_index (n i : Z) : Z :=
  if i <? 0 then Z.max (n + i) 0 else Z.min i n.

(** [s.slice(a, b)] *)
Definition slice (s : jsstring) (a b : Z) : jsstring :=
  let n := len s in
  let from := rel_index n a in
  let to := rel_index n b in
  firstn (Z.to_nat (to - from)) (skipn (Z.to_nat from) s).

(** [s.slice(a)] *)
Definition slice_from (s : jsstring) (a : Z) : jsstring :=
  slice s a (len s).

(** [s.startsWith(p)] *)
Fixpoint startsWith (s p : jsstring) {struct p} : bool :=
  match p, s with
  | [], _ => true
  | x :: p', y :: s' => N.eqb x y && startsWith s' p'
  | _ :: _, [] => false
  end.

(** [s.endsWith(p)]: the last [p.length] units of [s] are [p]. *)
Definition endsWith (s p : jsstring) : bool :=
  (length p <=? length s)%nat
  && str_eqb (skipn (length s - length p) s) p.

(** First index [i] with [p] at [s[i..]], if any. *)
Fixpoint find_first (p s : jsstring) : option nat :=
  if startsWith s p then Some 0%nat
  else match s with
       | [] => None
       | _ :: s' => option_map S (find_first p s')
       end.

(** [s.indexOf(p, pos)]: the search starts at [pos] clamped to [0, len];
    [-1] when there is no occurrence. *)
Definition indexOf (s p : jsstring) (pos : Z) : Z :=
  let k := Z.to_nat (Z.min (Z.max pos 0) (len s)) in
  match find_first p (skipn k s) with
  | Some i => Z.of_nat (k + i)
  | None => -1
  end.

(** [s.includes(p)] *)
Definition includes (s p : jsstring) : bool :=
  match find_first p s with Some _ => true | None => false end.

(** Largest index [i <= k] with [p] at [s[i..]], if any. *)
Fixpoint find_last (p s : jsstring) (k : nat) : option nat :=
  if startsWith (skipn k s) p then Some k
  else match k with
       | O => None
       | S k' => find_last p s k'
       end.

(** [s.lastIndexOf(p, pos)]: the search starts at [pos] clamped to
    [0, len - p.length] and goes backwards; a negative [pos] therefore
    still inspects index 0. *)
Definition lastIndexOf (s p : jsstring) (pos : Z) : Z :=
  let k := Z.min (Z.max pos 0) (len s - len p) in
  if k <? 0 then -1
  else match find_last p s (Z.to_nat k) with
       | Some i => Z.of_nat i
       | None => -1
       end.

(** [s.split(sep)] for a separator of one code unit, which is how every
    call site of the sources uses it. The result is never empty. *)
Fixpoint split (sep : code_unit) (s : jsstring) : list jsstring :=
  match s with
  | [] => [[]]
  | c :: s' =>
      if N.eqb c sep then [] :: split sep s'
      else match split sep s' with
           | [] => [[c]]
           | l :: ls => (c :: l) :: ls
           end
  end.

(** [lines.join(sep)] *)
Fixpoint join (sep : jsstring) (l : list jsstring) : jsstring :=
  match l with
  | [] => []
  | [x] => x
  | x :: r => x ++ sep ++ join sep r
  end.

(** WhiteSpace and LineTerminator code units, the set stripped by
    [trim], [trimStart] and by [parseInt]. *)
Definition is_ws (c : code_unit) : bool :=
  ((9 <=? c) && (c <=? 13) || (c =? 32) || (c =? 160) || (c =? 5760)
   || (8192 <=? c) && (c <=? 8202)
   || (c =? 8232) || (c =? 8233) || (c =? 8239) || (c =? 8287)
   || (c =? 12288) || (c =? 65279))%N.

Fixpoint dropWhile (f : code_unit -> bool) (s : jsstring) : jsstring :=
  match s with
  | [] => []
  | c :: s' => if f c then dropWhile f s' else s
  end.

Fixpoint takeWhile (f : code_unit -> bool) (s : jsstring) : jsstring :=
  match s with
  | [] => []
  | c :: s' => if f c then c :: takeWhile f s' else []
  end.

(** [s.trimStart()] *)
Definition trimStart (s : jsstring) : jsstring := dropWhile is_ws s.

(** [s.trimEnd()] *)
Definition trimEnd (s : jsstring) : jsstring := rev (dropWhile is_ws (rev s)).

(** [s.trim()] *)
Definition trim (s : jsstring) : jsstring := trimEnd (trimStart s).

(** [String(n)] and [`${n}`] for an integer-valued number. *)
Definition string_of_Z (n : Z) : jsstring :=
  lit (NilZero.string_of_int (Z.to_int n)).

Definition is_digit (c : code_unit) : bool := ((48 <=? c) && (c <=? 57))%N.

(** Value of a run of decimal digits, most significant first. *)
Definition digits_value (ds : jsstring) : Z :=
  fold_left (fun acc c => 10 * acc + (Z.of_N c - 48)) ds 0.

(** [parseInt(s, 10)]: leading white space is skipped, one sign is
    accepted, then the longest run of decimal digits is read; [None] is
    [NaN] (no digit at all). *)
Definition parseInt10 (s : jsstring) : option Z :=
  let s1 := trimStart s in
  let '(sign, s2) :=
    match s1 with
    | 45%N :: r => (-1, r)
    | 43%N :: r => (1, r)
    | _ => (1, s1)
    end in
  let ds := takeWhile is_digit s2 in
  match ds with
  | [] => None
  | _ => Some (sign * digits_value ds)
  end.

(** *** Regular expressions, as far as the sources use them *)

Inductive regex : Type :=
| Chars (w : jsstring)                  (* a run of literal characters *)
| ClassStar (cls : code_unit -> bool)   (* [c*] for a character class [c] *)
| Seq (r1 r2 : regex)
| Alt (r1 r2 : regex)
| Opt (r : regex).

(** Canonicalisation under the [i] flag. Only ASCII letters are folded:
    a code unit from 128 on never canonicalises below 128, so against the
    ASCII literals of the sources this is the whole story. *)
Definition canonicalize (c : code_unit) : code_unit :=
  if ((97 <=? c) && (c <=? 122))%N then (c - 32)%N else c.

Definition unit_eqb (ignoreCase : bool) (a b : code_unit) : bool :=
  if ignoreCase then N.eqb (canonicalize a) (canonicalize b) else N.eqb a b.

(** What is left of [s] after the literal [w], if [s] starts with it. *)
Fixpoint eat (ignoreCase : bool) (w s : jsstring) {struct w} : option jsstring :=
  match w, s with
  | [], _ => Some s
  | x :: w', y :: s' => if unit_eqb ignoreCase x y then eat ignoreCase w' s' else None
  | _ :: _, [] => None
  end.

(** Every way of consuming a (possibly empty) run of class members,
    longest first as the greedy quantifier tries them. *)
Fixpoint eat_star (cls : code_unit -> bool) (s : jsstring) : list jsstring :=
  match s with
  | [] => [[]]
  | c :: s' => if cls c then eat_star cls s' ++ [s] else [s]
  end.

(** The remainders of [s] after each way [r] matches a prefix of [s], in
    the order a backtracking matcher tries them. *)
Fixpoint residuals (ignoreCase : bool) (r : regex) (s : jsstring) : list jsstring :=
  match r with
  | Chars w => match eat ignoreCase w s with Some s' => [s'] | None => [] end
  | ClassStar cls => eat_star cls s
  | Seq r1 r2 => flat_map (residuals ignoreCase r2) (residuals ignoreCase r1 s)
  | Alt r1 r2 => residuals ignoreCase r1 s ++ residuals ignoreCase r2 s
  | Opt r1 => residuals ignoreCase r1 s ++ [s]
  end.

(** [/^r/.test(s)] *)
Definition test_anchored (ignoreCase : bool) (r : regex) (s : jsstring) : bool :=
  match residuals ignoreCase r s with [] => false | _ => true end.

(** [/r/.test(s)]: a match may start at any index. *)
Fixpoint test (ignoreCase : bool) (r : regex) (s : jsstring) : bool :=
  test_anchored ignoreCase r s
  || match s with
     | [] => false
     | _ :: s' => test ignoreCase r s'
     end.

(** [\w] *)
Definition is_word (c : code_unit) : bool :=
  ((48 <=? c) && (c <=? 57) || (65 <=? c) && (c <=? 90)
   || (97 <=? c) && (c <=? 122) || (c =? 95))%N.

Definition LF : code_unit := 10%N.

End JS.

Import JS.

(* ====================================================================== *)
(** ** [src/lib/selection.ts] *)
(* ====================================================================== *)

Module Selection.

Record SelectionRange : Type := { start : Z; end_ : Z }.

Record WrapResult : Type := { text : jsstring; selection : SelectionRange }.

(** Toggle wrapping of the selected text with a symmetric token. *)
Definition toggleWrap (text : jsstring) (start end_ : Z) (token : jsstring) : WrapResult :=
  let before := slice text 0 start in
  let selected := slice text start end_ in
  let after := slice_from text end_ in
  let hasTokenBefore := endsWith before token in
  let hasTokenAfter := startsWith after token in
  if hasTokenBefore && hasTokenAfter then
    let newText := slice before 0 (- len token) ++ selected ++ slice_from after (len token) in
    {| text := newText;
       selection := {| start := start - len token; end_ := end_ - len token |} |}
  else
    let selectedHasTokenStart := startsWith selected token in
    let selectedHasTokenEnd := endsWith selected token in
    if selectedHasTokenStart && selectedHasTokenEnd && (len token * 2 <=? len selected) then
      let unwrapped := slice selected (len token) (- len token) in
      let newText := before ++ unwrapped ++ after in
      {| text := newText;
         selection := {| start := start; end_ := end_ - len token * 2 |} |}
    else
      let newText := before ++ token ++ selected ++ token ++ after in
      {| text := newText;
         selection := {| start := start + len token; end_ := end_ + len token |} |}.

(** Toggle wrapping with distinct opening and closing tokens. *)
Definition toggleWrapAsymmetric (text : jsstring) (start end_ : Z)
    (startToken endToken : jsstring) : WrapResult :=
  let before := slice text 0 start in
  let selected := slice text start end_ in
  let after := slice_from text end_ in
  let hasTokenBefore := endsWith before startToken in
  let hasTokenAfter := startsWith after endToken in
  if hasTokenBefore && hasTokenAfter then
    let newText :=
      slice before 0 (- len startToken) ++ selected ++ slice_from after (len endToken) in
    {| text := newText;
       selection := {| start := start - len startToken; end_ := end_ - len startToken |} |}
  else
    let newText := before ++ startToken ++ selected ++ endToken ++ after in
    {| text := newText;
       selection := {| start := start + len startToken; end_ := end_ + len startToken |} |}.

(** Insert text at the cursor position. *)
Definition insertAt (text : jsstring) (position : Z) (toInsert : jsstring) : WrapResult :=
  let newText := slice text 0 position ++ toInsert ++ slice_from text position in
  {| text := newText;
     selection := {| start := position + len toInsert; end_ := position + len toInsert |} |}.

(** [line.startsWith(prefixWithSpace) || line.trim() === ''] *)
Definition hasPrefix (prefixWithSpace line : jsstring) : bool :=
  startsWith line prefixWithSpace || str_eqb (trim line) [].

(** Toggle a block prefix on every line the selection touches. *)
Definition toggleBlockPrefix (text : jsstring) (start end_ : Z) (prefix : jsstring) : WrapResult :=
  let lineStart := lastIndexOf text [LF] (start - 1) + 1 in
  let lineEnd := indexOf text [LF] end_ in
  let actualEnd := if lineEnd =? -1 then len text else lineEnd in
  let before := slice text 0 lineStart in
  let selected := slice text lineStart actualEnd in
  let after := slice_from text actualEnd in
  let lines := split LF selected in
  let prefixWithSpace := prefix ++ lit " " in
  let allHavePrefix := forallb (hasPrefix prefixWithSpace) lines in
  let '(newLines, deltaLength) :=
    if allHavePrefix then
      (map (fun line =>
              if startsWith line prefixWithSpace
              then slice_from line (len prefixWithSpace) else line) lines,
       - len prefixWithSpace
         * len (filter (fun l => startsWith l prefixWithSpace) lines))
    else
      (map (fun line => if truthy (trim line) then prefixWithSpace ++ line else line) lines,
       len prefixWithSpace * len (filter (fun l => truthy (trim l)) lines)) in
  let newSelected := join [LF] newLines in
  let newText := before ++ newSelected ++ after in
  {| text := newText;
     selection := {| start := lineStart; end_ := actualEnd + deltaLength |} |}.

(** [/```\w*\n/] *)
Definition fencePattern : regex :=
  Seq (Chars (lit "```")) (Seq (ClassStar is_word) (Chars [LF])).

(** Wrap the selection in a fenced code block. The detection of an
    enclosing fence guards an empty branch in the source, so both
    outcomes of the test continue with the wrap. [language] is an
    optional argument whose default is the empty string. *)
Definition toggleCodeBlock (text : jsstring) (start end_ : Z)
    (language : option jsstring) : WrapResult :=
  let language := match language with Some l => l | None => [] end in
  let before := slice text 0 start in
  let selected := slice text start end_ in
  let after := slice_from text end_ in
  let openFence := lit "```" ++ language ++ [LF] in
  let closeFence := [LF] ++ lit "```" in
  let hasOpenBefore := test false fencePattern (slice_from before (-20)) in
  let hasCloseAfter := startsWith (trimStart after) (lit "```") in
  let wrap :=
    let newText := before ++ openFence ++ selected ++ closeFence ++ after in
    {| text := newText;
       selection := {| start := start + len openFence; end_ := end_ + len openFence |} |} in
  if hasOpenBefore && hasCloseAfter then wrap else wrap.

(** Insert a masked link [[text](url)]. [url] is an optional argument
    whose default is the placeholder ["url"]. *)
Definition insertMaskedLink (text : jsstring) (start end_ : Z)
    (url : option jsstring) : WrapResult :=
  let url := match url with Some u => u | None => lit "url" end in
  let before := slice text 0 start in
  let selected :=
    let s := slice text start end_ in
    if truthy s then s else lit "link text" in
  let after := slice_from text end_ in
  let link := lit "[" ++ selected ++ lit "](" ++ url ++ lit ")" in
  let newText := before ++ link ++ after in
  let urlStart := start + len selected + 3 in
  let urlEnd := urlStart + len url in
  {| text := newText;
     selection :=
       {| start := if str_eqb url (lit "url") then urlStart else start;
          end_ := if str_eqb url (lit "url") then urlEnd else start + len link |} |}.

(** The domain of every transform: [0 <= start <= end <= text.length]. *)
Definition in_range (text : jsstring) (s e : Z) : Prop :=
  0 <= s /\ s <= e /\ e <= len text.

(** The invariant of a [WrapResult]. *)
Definition wf_result (r : WrapResult) : Prop :=
  start (selection r) <= end_ (selection r)
  /\ end_ (selection r) <= len (text r).

(** Which of the three branches of [toggleWrap] runs: the same tests, in
    the same order. *)
Inductive WrapCase : Type :=
| Surrounded   (* the token sits just outside the selection *)
| Inner        (* the selection itself begins and ends with the token *)
| Plain.       (* neither: the selection gets wrapped *)

Definition wrapCase (text : jsstring) (s e : Z) (token : jsstring) : WrapCase :=
  let before := slice text 0 s in
  let selected := slice text s e in
  let after := slice_from text e in
  if endsWith before token && startsWith after token then Surrounded
  else if startsWith selected token && endsWith selected token
          && (len token * 2 <=? len selected)
       then Inner
  else Plain.

(** The pieces of [toggleBlockPrefix], named: where the expanded region
    starts and ends, its lines, and what each branch does to one line. *)
Definition lineStart (text : jsstring) (s : Z) : Z :=
  lastIndexOf text [LF] (s - 1) + 1.

Definition actualEnd (text : jsstring) (e : Z) : Z :=
  let lineEnd := indexOf text [LF] e in
  if lineEnd =? -1 then len text else lineEnd.

Definition region_lines (text : jsstring) (s e : Z) : list jsstring :=
  split LF (slice text (lineStart text s) (actualEnd text e)).

Definition stripLine (prefixWithSpace line : jsstring) : jsstring :=
  if startsWith line prefixWithSpace
  then slice_from line (len prefixWithSpace) else line.

Definition addLine (prefixWithSpace line : jsstring) : jsstring :=
  if truthy (trim line) then prefixWithSpace ++ line else line.

(** The shape of a text around an expanded region: what precedes it is
    empty or ends with a newline, what follows is empty or begins with
    one. *)
Definition framed (before after : jsstring) : Prop :=
  (before = [] \/ exists b0, before = b0 ++ [LF])
  /\ (after = [] \/ exists a0, after = LF :: a0).

(** Applying [toggleBlockPrefix] to the text and selection it returned. *)
Definition toggleBlockPrefix_again (r : WrapResult) (prefix : jsstring) : WrapResult :=
  toggleBlockPrefix (text r) (start (selection r)) (end_ (selection r)) prefix.

(** Applying [toggleWrap] to the text and selection it returned. *)
Definition toggleWrap_again (r : WrapResult) (token : jsstring) : WrapResult :=
  toggleWrap (text r) (start (selection r)) (end_ (selection r)) token.

End Selection.

(* ====================================================================== *)
(** ** [src/lib/sanitize.ts]: the URL validator *)
(* ====================================================================== *)

Module Sanitize.

(** [/^(?:https?|mailto):/i] *)
Definition ALLOWED_URI_REGEXP : regex :=
  Seq (Alt (Seq (Chars (lit "http")) (Opt (Chars (lit "s")))) (Chars (lit "mailto")))
      (Chars (lit ":")).

(** [/^(?:javascript|data|vbscript):/i] *)
Definition BLOCKED_URI_REGEXP : regex :=
  Seq (Alt (Chars (lit "javascript")) (Alt (Chars (lit "data")) (Chars (lit "vbscript"))))
      (Chars (lit ":")).

Definition sanitizeUrl (url : jsstring) : jsstring :=
  let trimmed := trim url in
  if test_anchored true BLOCKED_URI_REGEXP trimmed then []
  else if test_anchored true ALLOWED_URI_REGEXP trimmed
          || startsWith trimmed (lit "/") || startsWith trimmed (lit "#")
       then trimmed
  else if negb (includes trimmed (lit "://")) then lit "https://" ++ trimmed
  else [].

End Sanitize.

(* ====================================================================== *)
(** ** [src/lib/markdown.ts]: timestamp rule and formatter *)
(* ====================================================================== *)

Module Markdown.

(** The three locale methods of [Date] the formatter calls, and the
    option bag each call passes. *)
Inductive DateMethod : Type :=
| toLocaleTimeString
| toLocaleDateString
| toLocaleString.

Definition DateOptions := list (string * string).

(** A token of the inline parser, with the fields the rule writes. *)
Record Token : Type := {
  type : jsstring;
  tag : jsstring;
  nesting : Z;
  markup : jsstring;
  attrs : list (jsstring * jsstring);
  content : jsstring
}.

(** The part of the inline parser state the rule reads and writes. *)
Record StateInline : Type := {
  src : jsstring;
  pos : Z;
  posMax : Z;
  tokens : list Token
}.

(** [token.attrSet(name, value)]: overwrite an attribute or append it. *)
Fixpoint attrSet (name value : jsstring) (l : list (jsstring * jsstring))
  : list (jsstring * jsstring) :=
  match l with
  | [] => [(name, value)]
  | (n, v) :: l' =>
      if str_eqb n name then (name, value) :: l' else (n, v) :: attrSet name value l'
  end.

(** [token.attrGet(name)]; [None] is [null]. *)
Fixpoint attrGet (name : jsstring) (l : list (jsstring * jsstring)) : option jsstring :=
  match l with
  | [] => None
  | (n, v) :: l' => if str_eqb n name then Some v else attrGet name l'
  end.

(** One row of the table of units: threshold, singular, plural. The last
    threshold of the source is [Infinity]. *)
Inductive threshold : Type :=
| Seconds (n : Z)
| Infinity.

Definition below (x : Z) (t : threshold) : bool :=
  match t with Seconds n => x <? n | Infinity => true end.

Definition units : list (threshold * jsstring * jsstring) :=
  [ (Seconds 60, lit "second", lit "seconds");
    (Seconds (60 * 60), lit "minute", lit "minutes");
    (Seconds (60 * 60 * 24), lit "hour", lit "hours");
    (Seconds (60 * 60 * 24 * 30), lit "day", lit "days");
    (Seconds (60 * 60 * 24 * 365), lit "month", lit "months");
    (Infinity, lit "year", lit "years") ].

(** [units[i][0]] read as a divisor. The loop reads it only for rows
    before the current one, which are all finite. *)
Definition threshold_at (i : nat) : Z :=
  match nth_error units i with
  | Some (Seconds n, _, _) => n
  | _ => 0
  end.

(** The [for] loop over the rows from index [i] on; [None] when it ends
    without reaching [break]. *)
Fixpoint scan_units (rows : list (threshold * jsstring * jsstring)) (i : nat)
    (absDiff : Z) : option (Z * jsstring) :=
  match rows with
  | [] => None
  | (thr, singular, plural) :: rest =>
      if below absDiff thr then
        let prevThreshold := if (0 <? i)%nat then threshold_at (i - 1) else 1 in
        let value := absDiff / prevThreshold in
        let unit := if value =? 1 then singular else plural in
        Some (value, unit)
      else scan_units rest (S i) absDiff
  end.

(** [formatRelativeTime(epoch)], with the reading [dateNow] of
    [Date.now()] made explicit. *)
Definition formatRelativeTime (dateNow : Z) (epoch : Z) : jsstring :=
  let now := dateNow / 1000 in
  let diff := epoch - now in
  let absDiff := Z.abs diff in
  let '(value, unit) :=
    match scan_units units 0 absDiff with
    | Some vu => vu
    | None => (absDiff, lit "seconds")
    end in
  if diff <? 0 then string_of_Z value ++ lit " " ++ unit ++ lit " ago"
  else if 0 <? diff then lit "in " ++ string_of_Z value ++ lit " " ++ unit
  else lit "now".

Section Host.

(** The host's locale-aware rendering of a time value (milliseconds). *)
Variable hostLocale : DateMethod -> DateOptions -> Z -> jsstring.

(** [formatTimestamp(epoch, style)] *)
Definition formatTimestamp (dateNow : Z) (epoch : Z) (style : jsstring) : jsstring :=
  let date := epoch * 1000 in
  if str_eqb style (lit "t") then
    hostLocale toLocaleTimeString
      [("hour", "numeric"); ("minute", "2-digit")]%string date
  else if str_eqb style (lit "T") then
    hostLocale toLocaleTimeString
      [("hour", "numeric"); ("minute", "2-digit"); ("second", "2-digit")]%string date
  else if str_eqb style (lit "d") then
    hostLocale toLocaleDateString
      [("month", "numeric"); ("day", "numeric"); ("year", "numeric")]%string date
  else if str_eqb style (lit "D") then
    hostLocale toLocaleDateString
      [("month", "long"); ("day", "numeric"); ("year", "numeric")]%string date
  else if str_eqb style (lit "f") then
    hostLocale toLocaleString
      [("month", "long"); ("day", "numeric"); ("year", "numeric");
       ("hour", "numeric"); ("minute", "2-digit")]%string date
  else if str_eqb style (lit "F") then
    hostLocale toLocaleString
      [("weekday", "long"); ("month", "long"); ("day", "numeric"); ("year", "numeric");
       ("hour", "numeric"); ("minute", "2-digit")]%string date
  else if str_eqb style (lit "R") then formatRelativeTime dateNow epoch
  else hostLocale toLocaleString [] date.

(** The inline rule [discord_timestamp]. The result pairs the rule's
    boolean with the state it leaves behind. The source mutates the token
    after [state.push]; nothing reads the token list in between, so the
    token is built first and appended once. *)
Definition discord_timestamp (dateNow : Z) (state : StateInline) (silent : bool)
  : bool * StateInline :=
  let start := pos state in
  if negb (str_eqb (slice (src state) start (start + 3)) (lit "<t:")) then (false, state)
  else
    let end_ := indexOf (src state) (lit ">") (start + 3) in
    if end_ =? -1 then (false, state)
    else
      let content := slice (src state) (start + 3) end_ in
      let parts := split 58%N content in
      let part0 := match nth_error parts 0 with Some p => p | None => lit "undefined" end in
      match parseInt10 part0 with
      | None => (false, state)
      | Some epoch =>
          let style :=
            match nth_error parts 1 with
            | Some p => if truthy p then p else lit "f"
            | None => lit "f"
            end in
          let tokens' :=
            if silent then tokens state
            else
              tokens state ++
              [ {| type := lit "discord_timestamp";
                   tag := lit "span";
                   nesting := 0;
                   markup := slice (src state) start (end_ + 1);
                   attrs :=
                     attrSet (lit "data-style") style
                       (attrSet (lit "data-epoch") (string_of_Z epoch)
                          (attrSet (lit "class") (lit "discord-timestamp") []));
                   content := formatTimestamp dateNow epoch style |} ] in
          (true,
           {| src := src state; pos := end_ + 1; posMax := posMax state;
              tokens := tokens' |})
      end.

End Host.

End Markdown.

(* ====================================================================== *)
(** ** [src/lib/time.ts]: the relative-time preview *)
(* ====================================================================== *)

Module Time.

(** [`${n} ${unit} ago`] or [`in ${n} ${unit}`] *)
Definition render (diff n : Z) (unit : jsstring) : jsstring :=
  if diff <? 0 then string_of_Z n ++ lit " " ++ unit ++ lit " ago"
  else lit "in " ++ string_of_Z n ++ lit " " ++ unit.

(** [formatRelativeTime(epoch)], with the reading [dateNow] of
    [Date.now()] made explicit. *)
Definition formatRelativeTime (dateNow : Z) (epoch : Z) : jsstring :=
  let now := dateNow / 1000 in
  let diff := epoch - now in
  let absDiff := Z.abs diff in
  if absDiff <? 60 then
    let secs := absDiff in
    let unit := if secs =? 1 then lit "second" else lit "seconds" in
    render diff secs unit
  else if absDiff <? 3600 then
    let mins := absDiff / 60 in
    let unit := if mins =? 1 then lit "minute" else lit "minutes" in
    render diff mins unit
  else if absDiff <? 86400 then
    let hours := absDiff / 3600 in
    let unit := if hours =? 1 then lit "hour" else lit "hours" in
    render diff hours unit
  else if absDiff <? 2592000 then
    let days := absDiff / 86400 in
    let unit := if days =? 1 then lit "day" else lit "days" in
    render diff days unit
  else if absDiff <? 31536000 then
    let months := absDiff / 2592000 in
    let unit := if months =? 1 then lit "month" else lit "months" in
    render diff months unit
  else
    let years := absDiff / 31536000 in
    let unit := if years =? 1 then lit "year" else lit "years" in
    render diff years unit.

End Time.

(* ====================================================================== *)
(** ** Further string primitives of the host language *)
(* ====================================================================== *)

Module JSMore.

(** [s.charCodeAt(i)]; [None] is [NaN], the answer outside the string. *)
Definition charCodeAt (s : jsstring) (i : Z) : option code_unit :=
  if i <? 0 then None else nth_error s (Z.to_nat i).

(** [s.charCodeAt(i) === c] *)
Definition code_is (s : jsstring) (i : Z) (c : code_unit) : bool :=
  match charCodeAt s i with
  | Some x => N.eqb x c
  | None => false
  end.

(** [s.replace(/c/g, w)] for a pattern of one literal code unit and a
    replacement without [$]. *)
Definition replace_all (c : code_unit) (w : jsstring) (s : jsstring) : jsstring :=
  flat_map (fun x => if N.eqb x c then w else [x]) s.

(** [s.padStart(targetLength, padString)] *)
Definition padStart (s : jsstring) (targetLength : Z) (padString : jsstring) : jsstring :=
  let fillLen := targetLength - len s in
  if (fillLen <=? 0) || negb (truthy padString) then s
  else
    let n := Z.to_nat fillLen in
    firstn n (concat (repeat padString n)) ++ s.

End JSMore.

Import JSMore.

(* ====================================================================== *)
(** ** [src/lib/markdown.ts]: underline and spoiler rules, escaping,
       the renderer of timestamps *)
(* ====================================================================== *)

Module MarkdownRules.
Import Markdown.

(** [escapeHtml(str)]: four global replacements, [&] first. *)
Definition escapeHtml (str : jsstring) : jsstring :=
  replace_all 34%N (lit "&quot;")
    (replace_all 62%N (lit "&gt;")
       (replace_all 60%N (lit "&lt;")
          (replace_all 38%N (lit "&amp;") str))).

(** The [while (pos < state.posMax - 1)] loop of both rules: the first
    [pos] at which the marker stands twice in a row. [fuel] is the number
    of iterations the loop condition allows. *)
Fixpoint scan_closing (marker : code_unit) (src : jsstring) (pos : Z) (fuel : nat)
  : option Z :=
  match fuel with
  | O => None
  | S fuel' =>
      if code_is src pos marker && code_is src (pos + 1) marker then Some pos
      else scan_closing marker src (pos + 1) fuel'
  end.

(** [state.push(type, tag, nesting)] followed by the assignments the
    rules make to the new token. *)
Definition mkToken (type tag : jsstring) (nesting : Z) (markup : jsstring)
    (attrs : list (jsstring * jsstring)) (content : jsstring) : Token :=
  {| type := type; tag := tag; nesting := nesting; markup := markup;
     attrs := attrs; content := content |}.

(** The inline rule [discord_underline]. *)
Definition discord_underline (state : StateInline) (silent : bool)
  : bool * StateInline :=
  let start := pos state in
  if negb (code_is (src state) start 95%N) then (false, state)
  else if posMax state <=? start + 4 then (false, state)
  else if negb (code_is (src state) (start + 1) 95%N) then (false, state)
  else
    let content_start := start + 2 in
    match scan_closing 95%N (src state) content_start
            (Z.to_nat (posMax state - 1 - content_start)) with
    | Some p =>
        let tokens' :=
          if silent then tokens state
          else
            tokens state ++
            [ mkToken (lit "underline_open") (lit "u") 1 (lit "__") [] [];
              mkToken (lit "text") [] 0 [] [] (slice (src state) content_start p);
              mkToken (lit "underline_close") (lit "u") (-1) (lit "__") [] [] ] in
        (true,
         {| src := src state; pos := p + 2; posMax := posMax state; tokens := tokens' |})
    | None => (false, state)
    end.

(** The inline rule [discord_spoiler]. *)
Definition discord_spoiler (state : StateInline) (silent : bool)
  : bool * StateInline :=
  let start := pos state in
  if negb (code_is (src state) start 124%N) then (false, state)
  else if negb (code_is (src state) (start + 1) 124%N) then (false, state)
  else if posMax state <=? start + 4 then (false, state)
  else
    let content_start := start + 2 in
    match scan_closing 124%N (src state) content_start
            (Z.to_nat (posMax state - 1 - content_start)) with
    | Some p =>
        let tokens' :=
          if silent then tokens state
          else
            tokens state ++
            [ mkToken (lit "spoiler_open") (lit "span") 1 (lit "||")
                (attrSet (lit "aria-label") (lit "Spoiler (click to reveal)")
                   (attrSet (lit "role") (lit "button")
                      (attrSet (lit "tabindex") (lit "0")
                         (attrSet (lit "class") (lit "spoiler") [])))) [];
              mkToken (lit "text") [] 0 [] [] (slice (src state) content_start p);
              mkToken (lit "spoiler_close") (lit "span") (-1) (lit "||") [] [] ] in
        (true,
         {| src := src state; pos := p + 2; posMax := posMax state; tokens := tokens' |})
    | None => (false, state)
    end.

Section Host.

Variable hostLocale : DateMethod -> DateOptions -> Z -> jsstring.

(** [formatTimestamp(NaN, style)]: every locale method answers
    ["Invalid Date"] for an invalid date, and in [formatRelativeTime] all
    comparisons with [NaN] fail, which leaves the ["now"] branch. *)
Definition formatTimestamp_NaN (style : jsstring) : jsstring :=
  if str_eqb style (lit "R") then lit "now" else lit "Invalid Date".

(** [md.renderer.rules.discord_timestamp(tokens, idx)]; [None] when
    [tokens[idx]] is undefined and the property access throws. *)
Definition render_discord_timestamp (dateNow : Z) (tokens : list Token) (idx : nat)
  : option jsstring :=
  match nth_error tokens idx with
  | None => None
  | Some token =>
      let epoch :=
        match attrGet (lit "data-epoch") (attrs token) with
        | Some v => if truthy v then v else lit "0"
        | None => lit "0"
        end in
      let style :=
        match attrGet (lit "data-style") (attrs token) with
        | Some v => if truthy v then v else lit "f"
        | None => lit "f"
        end in
      let formatted :=
        match parseInt10 epoch with
        | Some n => formatTimestamp hostLocale dateNow n style
        | None => formatTimestamp_NaN style
        end in
      Some (lit "<span class=" ++ [34%N] ++ lit "discord-timestamp" ++ [34%N]
            ++ lit " data-epoch=" ++ [34%N] ++ epoch ++ [34%N]
            ++ lit " data-style=" ++ [34%N] ++ style ++ [34%N]
            ++ lit " title=" ++ [34%N] ++ markup token ++ [34%N]
            ++ lit ">" ++ formatted ++ lit "</span>")
  end.

End Host.

End MarkdownRules.

(* ====================================================================== *)
(** ** [src/lib/time.ts]: tokens, offsets and the preview *)
(* ====================================================================== *)

Module TimeTokens.
Import Markdown.

(** [generateTimestampToken(epoch, style?)] *)
Definition generateTimestampToken (epoch : Z) (style : option jsstring) : jsstring :=
  match style with
  | Some st =>
      if truthy st && negb (str_eqb st (lit "f"))
      then lit "<t:" ++ string_of_Z epoch ++ lit ":" ++ st ++ lit ">"
      else lit "<t:" ++ string_of_Z epoch ++ lit ">"
  | None => lit "<t:" ++ string_of_Z epoch ++ lit ">"
  end.

(** [formatOffset(minutes)], e.g. ["+05:30"], ["-08:00"]. *)
Definition formatOffset (minutes : Z) : jsstring :=
  let sign := if 0 <=? minutes then lit "+" else lit "-" in
  let absMinutes := Z.abs minutes in
  let hours := absMinutes / 60 in
  let mins := Z.rem absMinutes 60 in
  sign ++ padStart (string_of_Z hours) 2 (lit "0") ++ lit ":"
       ++ padStart (string_of_Z mins) 2 (lit "0").

Section Host.

Variable hostLocale : DateMethod -> DateOptions -> Z -> jsstring.

(** [formatTimestampPreview(epoch, style)] *)
Definition formatTimestampPreview (dateNow : Z) (epoch : Z) (style : jsstring) : jsstring :=
  let date := epoch * 1000 in
  if str_eqb style (lit "t") then
    hostLocale toLocaleTimeString
      [("hour", "numeric"); ("minute", "2-digit")]%string date
  else if str_eqb style (lit "T") then
    hostLocale toLocaleTimeString
      [("hour", "numeric"); ("minute", "2-digit"); ("second", "2-digit")]%string date
  else if str_eqb style (lit "d") then
    hostLocale toLocaleDateString
      [("month", "numeric"); ("day", "numeric"); ("year", "numeric")]%string date
  else if str_eqb style (lit "D") then
    hostLocale toLocaleDateString
      [("month", "long"); ("day", "numeric"); ("year", "numeric")]%string date
  else if str_eqb style (lit "f") then
    hostLocale toLocaleString
      [("month", "long"); ("day", "numeric"); ("year", "numeric");
       ("hour", "numeric"); ("minute", "2-digit")]%string date
  else if str_eqb style (lit "F") then
    hostLocale toLocaleString
      [("weekday", "long"); ("month", "long"); ("day", "numeric"); ("year", "numeric");
       ("hour", "numeric"); ("minute", "2-digit")]%string date
  else if str_eqb style (lit "R") then Time.formatRelativeTime dateNow epoch
  else hostLocale toLocaleString [] date.

End Host.

End TimeTokens.

(* ====================================================================== *)
(** ** The behaviour the specification describes, for comparison *)
(* ====================================================================== *)

Module SpecText.

(** Case-insensitive "starts with" for an ASCII scheme prefix. *)
Fixpoint starts_with_ci (s p : jsstring) {struct p} : bool :=
  match p, s with
  | [], _ => true
  | x :: p', y :: s' => N.eqb (canonicalize x) (canonicalize y) && starts_with_ci s' p'
  | _ :: _, [] => false
  end.

Definition rejected_schemes : list jsstring :=
  [lit "javascript:"; lit "data:"; lit "vbscript:"].

Definition allowed_schemes : list jsstring :=
  [lit "http:"; lit "https:"; lit "mailto:"].

(** The sanitizer of section 4.4, on an input that is already trimmed. *)
Definition sanitize_trimmed (t : jsstring) : jsstring :=
  if existsb (starts_with_ci t) rejected_schemes then []
  else if existsb (starts_with_ci t) allowed_schemes then t
  else if startsWith t (lit "/") || startsWith t (lit "#") then t
  else if negb (includes t (lit "://")) then lit "https://" ++ t
  else [].

(** The ladder of section 4.3: the rung picked for [a = |diff|] and the
    threshold of the rung before it. *)
Definition rung (a : Z) : Z * jsstring :=
  if a <? 60 then (1, lit "second")
  else if a <? 3600 then (60, lit "minute")
  else if a <? 86400 then (3600, lit "hour")
  else if a <? 2592000 then (86400, lit "day")
  else if a <? 31536000 then (2592000, lit "month")
  else (31536000, lit "year").

Definition pluralize (n : Z) (unit : jsstring) : jsstring :=
  if n =? 1 then unit else unit ++ lit "s".

(** Style [R] of section 4.3 as a function of [epoch] and [now]. *)
Definition relative (epoch now : Z) : jsstring :=
  let diff := epoch - now in
  let '(previousThreshold, unit) := rung (Z.abs diff) in
  let n := Z.abs diff / previousThreshold in
  if diff <? 0 then string_of_Z n ++ lit " " ++ pluralize n unit ++ lit " ago"
  else if 0 <? diff then lit "in " ++ string_of_Z n ++ lit " " ++ pluralize n unit
  else lit "now".

(** The three cases of [toggleWrap] in section 4.5, on a text cut as
    [text[0:start]], [text[start:end]], [text[end:]]. *)
Definition surrounds (text : jsstring) (s e : Z) (token : jsstring) : bool :=
  (len token <=? s)
  && str_eqb (slice text (s - len token) s) token
  && str_eqb (slice text e (e + len token)) token.

Definition selection_is_wrapped (text : jsstring) (s e : Z) (token : jsstring) : bool :=
  let selected := slice text s e in
  startsWith selected token && endsWith selected token
  && (2 * len token <=? len selected).

Definition toggle_wrap (text : jsstring) (s e : Z) (token : jsstring)
  : jsstring * Z * Z :=
  let k := len token in
  if surrounds text s e token then
    (slice text 0 (s - k) ++ slice text s e ++ slice_from text (e + k), s - k, e - k)
  else if selection_is_wrapped text s e token then
    (slice text 0 s ++ slice text (s + k) (e - k) ++ slice_from text e, s, e - 2 * k)
  else
    (slice text 0 s ++ token ++ slice text s e ++ token ++ slice_from text e, s + k, e + k).

End SpecText.

(* ====================================================================== *)
(** ** Facts about the string primitives *)
(* ====================================================================== *)

Module JSFacts.

Lemma str_eqb_eq (a b : jsstring) : str_eqb a b = true <-> a = b.
Proof.
  revert b; induction a as [|x a IH]; intros [|y b]; simpl; split; intro H;
    try reflexivity; try discriminate.
  - apply andb_true_iff in H as [Hx Hab].
    apply N.eqb_eq in Hx; apply IH in Hab; congruence.
  - inversion H; subst. rewrite N.eqb_refl. simpl. now apply IH.
Qed.

Lemma str_eqb_refl (a : jsstring) : str_eqb a a = true.
Proof. now apply str_eqb_eq. Qed.

Lemma str_eqb_neq (a b : jsstring) : str_eqb a b = false <-> a <> b.
Proof.
  split.
  - intros H E. apply str_eqb_eq in E. congruence.
  - intros H. destruct (str_eqb a b) eqn:E; [|reflexivity].
    apply str_eqb_eq in E. contradiction.
Qed.

Lemma len_app {A} (a b : list A) : len (a ++ b) = len a + len b.
Proof. unfold len. rewrite length_app. lia. Qed.

Lemma len_nonneg {A} (a : list A) : 0 <= len a.
Proof. unfold len. lia. Qed.

Lemma len_nil_iff {A} (a : list A) : len a = 0 <-> a = [].
Proof.
  unfold len. split; intro H.
  - destruct a; [reflexivity | simpl in H; lia].
  - now subst.
Qed.

Lemma len_pos {A} (a : list A) : a <> [] -> 0 < len a.
Proof.
  intro H. pose proof (len_nonneg a). 
  destruct (Z.eq_dec (len a) 0) as [E|E]; [apply len_nil_iff in E; contradiction | lia].
Qed.

(** *** [startsWith] and [endsWith] as decompositions *)

Lemma startsWith_app (p r : jsstring) : startsWith (p ++ r) p = true.
Proof. induction p as [|x p IH]; simpl; [reflexivity|]. now rewrite N.eqb_refl. Qed.

Lemma startsWith_inv (s p : jsstring) :
  startsWith s p = true -> s = p ++ skipn (length p) s.
Proof.
  revert s; induction p as [|x p IH]; intros s H; simpl in *.
  - reflexivity.
  - destruct s as [|y s]; [discriminate|].
    apply andb_true_iff in H as [Hx Hs]. apply N.eqb_eq in Hx. subst y.
    simpl. f_equal. now apply IH.
Qed.

Lemma startsWith_iff (s p : jsstring) :
  startsWith s p = true <-> exists r, s = p ++ r.
Proof.
  split.
  - intro H. eexists. now apply startsWith_inv.
  - intros [r ->]. apply startsWith_app.
Qed.

Lemma startsWith_nil (s : jsstring) : startsWith s [] = true.
Proof. now destruct s. Qed.

Lemma startsWith_length (s p : jsstring) :
  startsWith s p = true -> (length p <= length s)%nat.
Proof. intro H. apply startsWith_inv in H. rewrite H, length_app. lia. Qed.

Lemma endsWith_app (r p : jsstring) : endsWith (r ++ p) p = true.
Proof.
  unfold endsWith. rewrite length_app.
  replace (length r + length p - length p)%nat with (length r) by lia.
  rewrite skipn_app, skipn_all, Nat.sub_diag. simpl.
  rewrite str_eqb_refl, andb_true_r. apply Nat.leb_le. lia.
Qed.

Lemma endsWith_inv (s p : jsstring) :
  endsWith s p = true -> s = firstn (length s - length p) s ++ p.
Proof.
  unfold endsWith. intro H. apply andb_true_iff in H as [_ H].
  apply str_eqb_eq in H.
  remember (length s - length p)%nat as n eqn:En.
  rewrite <- H. symmetry. apply firstn_skipn.
Qed.

Lemma endsWith_iff (s p : jsstring) :
  endsWith s p = true <-> exists r, s = r ++ p.
Proof.
  split.
  - intro H. eexists. now apply endsWith_inv.
  - intros [r ->]. apply endsWith_app.
Qed.

Lemma endsWith_nil (s : jsstring) : endsWith s [] = true.
Proof. rewrite <- (app_nil_r s) at 1. apply endsWith_app. Qed.

(** A string that starts and ends with [p] and is long enough for both
    occurrences is [p ++ inner ++ p]. *)
Lemma wrapped_inv (s p : jsstring) :
  startsWith s p = true -> endsWith s p = true -> 2 * len p <= len s ->
  exists inner, s = p ++ inner ++ p.
Proof.
  intros Hs He Hl.
  apply startsWith_iff in Hs as [r ->].
  apply endsWith_inv in He.
  rewrite len_app in Hl.
  assert (Hr : (length p <= length r)%nat) by (unfold len in Hl; lia).
  rewrite length_app in He.
  replace (length p + length r - length p)%nat with (length r) in He by lia.
  rewrite firstn_app in He.
  rewrite firstn_all2 in He by lia.
  rewrite <- app_assoc in He. apply app_inv_head in He.
  exists (firstn (length r - length p) r). now rewrite <- He.
Qed.

(** *** [slice] inside the bounds *)

Lemma slice_inside (s : jsstring) (a b : Z) :
  0 <= a <= len s -> 0 <= b <= len s ->
  slice s a b = firstn (Z.to_nat (b - a)) (skipn (Z.to_nat a) s).
Proof.
  intros Ha Hb. unfold slice, rel_index.
  destruct (Z.ltb_spec a 0); [lia|]. destruct (Z.ltb_spec b 0); [lia|].
  now rewrite !Z.min_l by lia.
Qed.

Lemma slice_from_inside (s : jsstring) (a : Z) :
  0 <= a <= len s -> slice_from s a = skipn (Z.to_nat a) s.
Proof.
  intro Ha. unfold slice_from. rewrite slice_inside by (pose proof (len_nonneg s); lia).
  apply firstn_all2. rewrite length_skipn. unfold len in *. lia.
Qed.

Lemma slice_prefix (b r : jsstring) : slice (b ++ r) 0 (len b) = b.
Proof.
  rewrite slice_inside.
  - simpl. rewrite Z.sub_0_r. unfold len. rewrite Nat2Z.id.
    rewrite firstn_app, Nat.sub_diag, firstn_all. simpl. apply app_nil_r.
  - pose proof (len_nonneg (b ++ r)); lia.
  - rewrite len_app. pose proof (len_nonneg b). pose proof (len_nonneg r). lia.
Qed.

Lemma slice_from_suffix (b r : jsstring) : slice_from (b ++ r) (len b) = r.
Proof.
  rewrite slice_from_inside.
  - unfold len. rewrite Nat2Z.id, skipn_app, skipn_all, Nat.sub_diag. reflexivity.
  - rewrite len_app. pose proof (len_nonneg b). pose proof (len_nonneg r). lia.
Qed.

Lemma slice_middle (b m a : jsstring) (i j : Z) :
  i = len b -> j = len b + len m -> slice (b ++ m ++ a) i j = m.
Proof.
  intros -> ->.
  pose proof (len_nonneg b). pose proof (len_nonneg m). pose proof (len_nonneg a).
  rewrite slice_inside by (rewrite !len_app; lia).
  replace (len b + len m - len b) with (len m) by lia.
  unfold len. rewrite !Nat2Z.id, skipn_app, skipn_all, Nat.sub_diag. simpl.
  rewrite firstn_app, Nat.sub_diag, firstn_all. simpl. apply app_nil_r.
Qed.

(** Cutting a text at a selection inside its bounds. *)
Lemma cut (text : jsstring) (s e : Z) :
  0 <= s -> s <= e -> e <= len text ->
  exists b m a,
    text = b ++ m ++ a /\ len b = s /\ len m = e - s.
Proof.
  intros H0 H1 H2.
  exists (firstn (Z.to_nat s) text),
         (firstn (Z.to_nat (e - s)) (skipn (Z.to_nat s) text)),
         (skipn (Z.to_nat (e - s)) (skipn (Z.to_nat s) text)).
  split; [now rewrite !firstn_skipn|].
  unfold len in *. rewrite !length_firstn, length_skipn. lia.
Qed.

(** The three slices every transform starts with. *)
Lemma slices_of_cut (b m a : jsstring) (s e : Z) :
  len b = s -> len m = e - s ->
  slice (b ++ m ++ a) 0 s = b
  /\ slice (b ++ m ++ a) s e = m
  /\ slice_from (b ++ m ++ a) e = a.
Proof.
  intros Hb Hm. subst s. split; [apply slice_prefix|]. split.
  - apply slice_middle; [reflexivity | lia].
  - replace e with (len (b ++ m)) by (rewrite len_app; lia).
    rewrite app_assoc. apply slice_from_suffix.
Qed.

(** Dropping a token of positive length from the end with a negative
    end index. *)
Lemma slice_drop_end (r p : jsstring) : p <> [] -> slice (r ++ p) 0 (- len p) = r.
Proof.
  intro Hp. apply len_pos in Hp. pose proof (len_nonneg r).
  unfold slice, rel_index. rewrite len_app.
  destruct (Z.ltb_spec 0 0); [lia|]. destruct (Z.ltb_spec (- len p) 0); [|lia].
  rewrite Z.min_l by lia. rewrite Z.max_l by lia. simpl.
  replace (len r + len p + - len p - 0) with (len r) by lia.
  unfold len. rewrite Nat2Z.id, firstn_app, Nat.sub_diag, firstn_all. simpl.
  apply app_nil_r.
Qed.

(** With the empty token the end index is [-0 = 0]: nothing is kept. *)
Lemma slice_drop_end_empty (s : jsstring) : slice s 0 (- len (@nil code_unit)) = [].
Proof.
  unfold slice, rel_index. simpl. 
  rewrite Z.min_l by apply len_nonneg. reflexivity.
Qed.

Lemma slice_strip_both (p inner : jsstring) :
  p <> [] -> slice (p ++ inner ++ p) (len p) (- len p) = inner.
Proof.
  intro Hp. apply len_pos in Hp. pose proof (len_nonneg inner).
  unfold slice, rel_index. rewrite !len_app.
  destruct (Z.ltb_spec (len p) 0); [lia|]. destruct (Z.ltb_spec (- len p) 0); [|lia].
  rewrite Z.min_l by lia. rewrite Z.max_l by lia.
  replace (len p + (len inner + len p) + - len p - len p) with (len inner) by lia.
  unfold len. rewrite !Nat2Z.id, skipn_app, skipn_all, Nat.sub_diag. simpl.
  rewrite firstn_app, Nat.sub_diag, firstn_all. simpl. apply app_nil_r.
Qed.

End JSFacts.

(* ====================================================================== *)
(** ** [toggleWrap] *)
(* ====================================================================== *)

Module ToggleWrapFacts.
Import JSFacts Selection.

Lemma toggleWrap_by_case text s e token :
  toggleWrap text s e token =
  let before := slice text 0 s in
  let selected := slice text s e in
  let after := slice_from text e in
  match wrapCase text s e token with
  | Surrounded =>
      {| text := slice before 0 (- len token) ++ selected ++ slice_from after (len token);
         selection := {| start := s - len token; end_ := e - len token |} |}
  | Inner =>
      {| text := before ++ slice selected (len token) (- len token) ++ after;
         selection := {| start := s; end_ := e - len token * 2 |} |}
  | Plain =>
      {| text := before ++ token ++ selected ++ token ++ after;
         selection := {| start := s + len token; end_ := e + len token |} |}
  end.
Proof.
  unfold toggleWrap, wrapCase. cbv zeta.
  destruct (endsWith _ token && startsWith _ token); [reflexivity|].
  destruct (startsWith _ token && endsWith _ token && _); reflexivity.
Qed.

Lemma wrapCase_cut b m a s e token :
  len b = s -> len m = e - s ->
  wrapCase (b ++ m ++ a) s e token =
  if endsWith b token && startsWith a token then Surrounded
  else if startsWith m token && endsWith m token && (len token * 2 <=? len m) then Inner
  else Plain.
Proof.
  intros Hb Hm. unfold wrapCase. cbv zeta.
  destruct (slices_of_cut b m a s e Hb Hm) as (-> & -> & ->). reflexivity.
Qed.

Lemma toggleWrap_cut b m a s e token :
  len b = s -> len m = e - s ->
  toggleWrap (b ++ m ++ a) s e token =
  match wrapCase (b ++ m ++ a) s e token with
  | Surrounded =>
      {| text := slice b 0 (- len token) ++ m ++ slice_from a (len token);
         selection := {| start := s - len token; end_ := e - len token |} |}
  | Inner =>
      {| text := b ++ slice m (len token) (- len token) ++ a;
         selection := {| start := s; end_ := e - len token * 2 |} |}
  | Plain =>
      {| text := b ++ token ++ m ++ token ++ a;
         selection := {| start := s + len token; end_ := e + len token |} |}
  end.
Proof.
  intros Hb Hm. rewrite toggleWrap_by_case. cbv zeta.
  destruct (slices_of_cut b m a s e Hb Hm) as (-> & -> & ->). reflexivity.
Qed.

(** After a wrap the token surrounds the selection, so the next toggle
    removes exactly what was added. *)
Lemma unwrap_after_wrap b m a s e token :
  token <> [] -> len b = s -> len m = e - s ->
  toggleWrap (b ++ token ++ m ++ token ++ a) (s + len token) (e + len token) token
  = {| text := b ++ m ++ a; selection := {| start := s; end_ := e |} |}.
Proof.
  intros Ht Hb Hm.
  replace (b ++ token ++ m ++ token ++ a) with ((b ++ token) ++ m ++ (token ++ a))
    by now rewrite <- !app_assoc.
  assert (Hb' : len (b ++ token) = s + len token) by (rewrite len_app; lia).
  assert (Hm' : len m = e + len token - (s + len token)) by lia.
  rewrite (toggleWrap_cut _ _ _ _ _ token Hb' Hm').
  rewrite (wrapCase_cut _ _ _ _ _ token Hb' Hm').
  rewrite endsWith_app, startsWith_app. simpl.
  rewrite slice_drop_end by assumption. rewrite slice_from_suffix.
  do 2 f_equal; lia.
Qed.

Lemma startsWith_firstn (r p : jsstring) :
  str_eqb (firstn (length p) r) p = startsWith r p.
Proof.
  revert r; induction p as [|x p IH]; intros r; simpl.
  - reflexivity.
  - destruct r as [|y r]; simpl; [reflexivity|].
    rewrite IH. now rewrite N.eqb_sym.
Qed.

(** Comparing the window of [p.length] units after a prefix with [p] is
    [startsWith] on what follows the prefix. *)
Lemma slice_window (b a p : jsstring) :
  str_eqb (slice (b ++ a) (len b) (len b + len p)) p = startsWith a p.
Proof.
  pose proof (len_nonneg b). pose proof (len_nonneg a). pose proof (len_nonneg p).
  unfold slice, rel_index. rewrite !len_app.
  destruct (Z.ltb_spec (len b) 0); [lia|].
  destruct (Z.ltb_spec (len b + len p) 0); [lia|].
  rewrite (Z.min_l (len b)) by lia.
  replace (Z.to_nat (len b)) with (length b) by (unfold len; lia).
  rewrite skipn_app, skipn_all, Nat.sub_diag. simpl.
  rewrite <- startsWith_firstn.
  destruct (Z.le_ge_cases (len p) (len a)).
  - rewrite Z.min_l by lia. f_equal. f_equal. unfold len in *. lia.
  - rewrite Z.min_r by lia. rewrite !firstn_all2; [reflexivity | |];
      unfold len in *; lia.
Qed.

(** The test of case (a) as the specification words it, on a cut text. *)
Lemma surrounds_cut b m a s e token :
  len b = s -> len m = e - s ->
  SpecText.surrounds (b ++ m ++ a) s e token = endsWith b token && startsWith a token.
Proof.
  intros Hb Hm. unfold SpecText.surrounds, endsWith.
  pose proof (len_nonneg b). pose proof (len_nonneg m). pose proof (len_nonneg a).
  pose proof (len_nonneg token).
  assert (Ha : str_eqb (slice (b ++ m ++ a) e (e + len token)) token = startsWith a token).
  { replace e with (len (b ++ m)) by (rewrite len_app; lia).
    rewrite app_assoc. apply slice_window. }
  rewrite Ha.
  destruct (Z.leb_spec (len token) s) as [Hk|Hk].
  - replace (length token <=? length b)%nat with true
      by (symmetry; apply Nat.leb_le; unfold len in *; lia).
    simpl. f_equal.
    rewrite slice_inside by (rewrite !len_app; lia).
    replace (s - (s - len token)) with (len token) by lia.
    replace (Z.to_nat (s - len token)) with (length b - length token)%nat
      by (unfold len in *; lia).
    rewrite skipn_app.
    replace (length b - length token - length b)%nat with 0%nat by lia. simpl.
    unfold len. rewrite Nat2Z.id, firstn_app.
    rewrite length_skipn.
    replace (length token - (length b - (length b - length token)))%nat with 0%nat
      by (unfold len in *; lia).
    simpl. rewrite app_nil_r. rewrite firstn_all2; [reflexivity|].
    rewrite length_skipn. unfold len in *. lia.
  - replace (length token <=? length b)%nat with false
      by (symmetry; apply Nat.leb_gt; unfold len in *; lia).
    reflexivity.
Qed.

Lemma selection_is_wrapped_cut b m a s e token :
  len b = s -> len m = e - s ->
  SpecText.selection_is_wrapped (b ++ m ++ a) s e token
  = startsWith m token && endsWith m token && (len token * 2 <=? len m).
Proof.
  intros Hb Hm. unfold SpecText.selection_is_wrapped. cbv zeta.
  destruct (slices_of_cut b m a s e Hb Hm) as (_ & -> & _).
  now rewrite (Z.mul_comm 2).
Qed.

(** For a non-empty token [toggleWrap] is the three-case toggle of
    section 4.5. *)
Lemma toggleWrap_three_cases t s e token :
  in_range t s e -> token <> [] ->
  let r := toggleWrap t s e token in
  (text r, start (selection r), end_ (selection r)) = SpecText.toggle_wrap t s e token.
Proof.
  intros (H0 & H1 & H2) Ht. cbv zeta.
  destruct (cut t s e H0 H1 H2) as (b & m & a & -> & Hb & Hm).
  rewrite (toggleWrap_cut _ _ _ _ _ token Hb Hm), (wrapCase_cut _ _ _ _ _ token Hb Hm).
  unfold SpecText.toggle_wrap. cbv zeta.
  rewrite (surrounds_cut _ _ _ _ _ token Hb Hm).
  rewrite (selection_is_wrapped_cut _ _ _ _ _ token Hb Hm).
  destruct (slices_of_cut b m a s e Hb Hm) as (Eb & Em & Ea).
  pose proof (len_nonneg b). pose proof (len_nonneg m). pose proof (len_nonneg a).
  destruct (endsWith b token && startsWith a token) eqn:Hsur.
  - apply andb_true_iff in Hsur as [Hbe Has].
    apply endsWith_iff in Hbe as [b0 ->]. apply startsWith_iff in Has as [a0 ->].
    rewrite len_app in Hb. cbn [text selection start end_].
    rewrite slice_drop_end by assumption. rewrite slice_from_suffix.
    rewrite Em.
    replace ((b0 ++ token) ++ m ++ token ++ a0) with (b0 ++ (token ++ m ++ token) ++ a0)
      by now rewrite <- !app_assoc.
    replace (s - len token) with (len b0) by lia. rewrite slice_prefix.
    replace (b0 ++ (token ++ m ++ token) ++ a0) with ((b0 ++ token ++ m ++ token) ++ a0)
      by now rewrite <- !app_assoc.
    replace (e + len token) with (len (b0 ++ token ++ m ++ token))
      by (rewrite !len_app; lia).
    rewrite slice_from_suffix. reflexivity.
  - destruct (startsWith m token && endsWith m token && (len token * 2 <=? len m)) eqn:Hin.
    + apply andb_true_iff in Hin as [Hin Hl]. apply andb_true_iff in Hin as [Hms Hme].
      apply Z.leb_le in Hl.
      destruct (wrapped_inv m token Hms Hme ltac:(lia)) as [inner ->].
      cbn [text selection start end_]. rewrite slice_strip_both by assumption. rewrite Eb, Ea.
      rewrite !len_app in Hm.
      replace (b ++ (token ++ inner ++ token) ++ a)
        with ((b ++ token) ++ inner ++ (token ++ a)) by now rewrite <- !app_assoc.
      rewrite (slice_middle (b ++ token) inner (token ++ a))
        by (rewrite len_app; lia).
      do 2 f_equal. lia.
    + cbn [text selection start end_]. now rewrite Eb, Em, Ea.
Qed.

(** C10. With the empty token [toggleWrap] always runs its first branch
    (both tests hold vacuously), the result text is [text.slice(start)],
    the selection stays at [{start, end}], and for [start > 0] the text
    has changed. *)
Theorem toggleWrap_empty_token t s e :
  in_range t s e ->
  wrapCase t s e [] = Surrounded
  /\ toggleWrap t s e []
     = {| text := slice_from t s; selection := {| start := s; end_ := e |} |}
  /\ (0 < s -> text (toggleWrap t s e []) <> t).
Proof.
  intros (H0 & H1 & H2).
  destruct (cut t s e H0 H1 H2) as (b & m & a & -> & Hb & Hm).
  assert (Hc : wrapCase (b ++ m ++ a) s e [] = Surrounded).
  { rewrite (wrapCase_cut _ _ _ _ _ [] Hb Hm).
    now rewrite endsWith_nil, startsWith_nil. }
  assert (Hr : toggleWrap (b ++ m ++ a) s e []
               = {| text := slice_from (b ++ m ++ a) s;
                    selection := {| start := s; end_ := e |} |}).
  { assert (Es : slice_from (b ++ m ++ a) s = m ++ a)
      by (rewrite <- Hb; apply slice_from_suffix).
    assert (Ea : slice_from a (len (@nil code_unit)) = a)
      by apply (slice_from_suffix [] a).
    rewrite (toggleWrap_cut _ _ _ _ _ [] Hb Hm), Hc, Es.
    rewrite slice_drop_end_empty, Ea.
    change (len (@nil code_unit)) with 0. rewrite !Z.sub_0_r. reflexivity. }
  split; [exact Hc|]. split; [exact Hr|].
  intros Hs. rewrite Hr. cbn [text]. rewrite <- Hb. rewrite slice_from_suffix.
  intro E. apply (f_equal (@length code_unit)) in E.
  rewrite !length_app in E. unfold len in Hb. lia.
Qed.

Lemma toggleWrap_empty_token_witness :
  in_range (lit "abc") 1 2
  /\ toggleWrap (lit "abc") 1 2 []
     = {| text := lit "bc"; selection := {| start := 1; end_ := 2 |} |}.
Proof.
  assert (H : in_range (lit "abc") 1 2) by (unfold in_range; cbn; lia).
  split; [exact H|].
  exact (proj1 (proj2 (toggleWrap_empty_token (lit "abc") 1 2 H))).
Defined.

(** C4, as stated, fails: unwrapping the inner markers of a selection and
    toggling again wraps the shrunken selection from outside, so the text
    comes back but the selection does not. *)
Lemma toggleWrap_round_trip_fails :
  in_range (lit "**a**") 0 5 /\ lit "**" <> []
  /\ toggleWrap (lit "**a**") 0 5 (lit "**")
     = {| text := lit "a"; selection := {| start := 0; end_ := 1 |} |}
  /\ toggleWrap_again (toggleWrap (lit "**a**") 0 5 (lit "**")) (lit "**")
     = {| text := lit "**a**"; selection := {| start := 2; end_ := 3 |} |}
  /\ toggleWrap_again (toggleWrap (lit "**a**") 0 5 (lit "**")) (lit "**")
     <> {| text := lit "**a**"; selection := {| start := 0; end_ := 5 |} |}.
Proof.
  repeat split; try (unfold in_range; cbn; lia); try discriminate;
    try (vm_compute; reflexivity).
Qed.

(** A selection wrapped twice is unwrapped twice: here not even the text
    comes back. *)
Lemma toggleWrap_unwraps_twice :
  toggleWrap (lit "****a****") 4 5 (lit "**")
  = {| text := lit "**a**"; selection := {| start := 2; end_ := 3 |} |}
  /\ toggleWrap (lit "**a**") 2 3 (lit "**")
     = {| text := lit "a"; selection := {| start := 0; end_ := 1 |} |}.
Proof. split; vm_compute; reflexivity. Qed.

(** C4, as amended. For a non-empty token, toggling twice restores the
    text and the selection when the first toggle wraps (the second then
    removes what was added), and when the first toggle removes markers
    just outside the selection and the second one wraps. *)
Theorem toggleWrap_round_trip t s e token :
  in_range t s e -> token <> [] ->
  (wrapCase t s e token = Plain
   \/ (wrapCase t s e token = Surrounded
       /\ let r1 := toggleWrap t s e token in
          wrapCase (text r1) (start (selection r1)) (end_ (selection r1)) token = Plain)) ->
  toggleWrap_again (toggleWrap t s e token) token
  = {| text := t; selection := {| start := s; end_ := e |} |}.
Proof.
  intros (H0 & H1 & H2) Ht Hcase.
  destruct (cut t s e H0 H1 H2) as (b & m & a & -> & Hb & Hm).
  unfold toggleWrap_again.
  rewrite (toggleWrap_cut _ _ _ _ _ token Hb Hm) in *.
  destruct Hcase as [Hp | [Hsur Hp]].
  - rewrite Hp. simpl. now apply unwrap_after_wrap.
  - rewrite Hsur in *. simpl in Hp |- *.
    rewrite (wrapCase_cut _ _ _ _ _ token Hb Hm) in Hsur.
    destruct (endsWith b token && startsWith a token) eqn:Hba;
      [|destruct (_ && _ && _); discriminate].
    apply andb_true_iff in Hba as [Hbe Has].
    apply endsWith_iff in Hbe as [b0 ->]. apply startsWith_iff in Has as [a0 ->].
    rewrite slice_drop_end in * by assumption.
    rewrite slice_from_suffix in *.
    rewrite len_app in Hb.
    assert (Hb0 : len b0 = s - len token) by lia.
    assert (Hm0 : len m = e - len token - (s - len token)) by lia.
    rewrite (toggleWrap_cut _ _ _ _ _ token Hb0 Hm0), Hp.
    rewrite <- !app_assoc. do 2 f_equal; lia.
Qed.

Lemma toggleWrap_round_trip_witness :
  toggleWrap_again (toggleWrap (lit "hello world") 0 5 (lit "**")) (lit "**")
  = {| text := lit "hello world"; selection := {| start := 0; end_ := 5 |} |}.
Proof.
  apply toggleWrap_round_trip.
  - unfold in_range; cbn; lia.
  - discriminate.
  - left. vm_compute. reflexivity.
Defined.

(** C3. The three cases are right for every non-empty token
    ([toggleWrap_three_cases]), and the scenario of the specification
    holds; with the empty token the first branch keeps nothing of the
    text before the selection, where the specification removes two empty
    occurrences and so leaves the text as it is. *)
Theorem toggleWrap_empty_token_drops_prefix :
  in_range (lit "abc") 1 2
  /\ toggleWrap (lit "abc") 1 2 []
     = {| text := lit "bc"; selection := {| start := 1; end_ := 2 |} |}
  /\ SpecText.toggle_wrap (lit "abc") 1 2 [] = (lit "abc", 1, 2)
  /\ toggleWrap (lit "hello world") 0 5 (lit "**")
     = {| text := lit "**hello** world"; selection := {| start := 2; end_ := 7 |} |}.
Proof.
  repeat split; try (unfold in_range; cbn; lia); vm_compute; reflexivity.
Qed.

End ToggleWrapFacts.

(* ====================================================================== *)
(** ** [insertMaskedLink] *)
(* ====================================================================== *)

Module MaskedLinkFacts.
Import JSFacts Selection.

(** C6, as stated, fails: with a URL other than the placeholder the
    selection is not a caret after the link, it spans the whole link. *)
Lemma insertMaskedLink_no_caret :
  let r := insertMaskedLink (lit "abc") 0 3 (Some (lit "https://x.y")) in
  in_range (lit "abc") 0 3
  /\ text r = lit "[abc](https://x.y)"
  /\ selection r = {| start := 0; end_ := 18 |}
  /\ selection r <> {| start := 18; end_ := 18 |}
  /\ start (selection r) <> end_ (selection r).
Proof.
  cbv zeta. repeat split; try (unfold in_range; cbn; lia); try (vm_compute; reflexivity);
    vm_compute; discriminate.
Qed.

(** C6, as amended. The text gains ["[" + selected + "](" + url + ")"],
    with ["link text"] for an empty selection; when the URL is the
    placeholder ["url"] the new selection is exactly the URL inside the
    link, otherwise it is exactly the whole inserted link. *)
Theorem insertMaskedLink_result t s e url :
  in_range t s e ->
  let u := match url with Some u => u | None => lit "url" end in
  let selected := if truthy (slice t s e) then slice t s e else lit "link text" in
  let link := lit "[" ++ selected ++ lit "](" ++ u ++ lit ")" in
  let r := insertMaskedLink t s e url in
  text r = slice t 0 s ++ link ++ slice_from t e
  /\ (u = lit "url" ->
      selection r = {| start := s + len selected + 3;
                       end_ := s + len selected + 3 + len u |}
      /\ slice (text r) (start (selection r)) (end_ (selection r)) = u)
  /\ (u <> lit "url" ->
      selection r = {| start := s; end_ := s + len link |}
      /\ slice (text r) (start (selection r)) (end_ (selection r)) = link).
Proof.
  intros (H0 & H1 & H2). cbv zeta.
  destruct (cut t s e H0 H1 H2) as (b & m & a & -> & Hb & Hm).
  unfold insertMaskedLink. cbv zeta.
  destruct (slices_of_cut b m a s e Hb Hm) as (-> & -> & ->).
  cbn [text selection start end_].
  remember (match url with Some u => u | None => lit "url" end) as u eqn:Eu.
  match goal with
  | |- context [lit "[" ++ ?x ++ _] => remember x as selected eqn:Es
  end.
  clear Eu Es.
  split; [reflexivity|]. split; intro Hu.
  - apply str_eqb_eq in Hu. rewrite Hu. split; [reflexivity|].
    replace (b ++ (lit "[" ++ selected ++ lit "](" ++ u ++ lit ")") ++ a)
      with ((b ++ lit "[" ++ selected ++ lit "](") ++ u ++ (lit ")" ++ a))
      by now rewrite <- !app_assoc.
    apply slice_middle; rewrite !len_app; change (len (lit "[")) with 1;
      change (len (lit "](")) with 2; lia.
  - apply str_eqb_neq in Hu. rewrite Hu. split; [reflexivity|].
    apply slice_middle; lia.
Qed.

Lemma insertMaskedLink_result_witness :
  in_range (lit "abc") 1 1
  /\ insertMaskedLink (lit "abc") 1 1 None
     = {| text := lit "a[link text](url)bc"; selection := {| start := 13; end_ := 16 |} |}.
Proof.
  assert (H : in_range (lit "abc") 1 1) by (unfold in_range; cbn; lia).
  split; [exact H|].
  pose proof (insertMaskedLink_result (lit "abc") 1 1 None H) as (Ht & Hu & _).
  specialize (Hu eq_refl) as [Hs _].
  destruct (insertMaskedLink (lit "abc") 1 1 None) as [rt rs].
  cbn [text selection] in Ht, Hs. rewrite Ht, Hs. vm_compute. reflexivity.
Defined.

End MaskedLinkFacts.

(* ====================================================================== *)
(** ** The invariant of the results *)
(* ====================================================================== *)

Module InvariantFacts.
Import JSFacts Selection ToggleWrapFacts.

Ltac lens :=
  repeat match goal with
         | |- context [len (?x ++ ?y)] => rewrite (len_app x y)
         | H : context [len (?x ++ ?y)] |- _ => rewrite (len_app x y) in H
         end;
  repeat match goal with
         | |- context [len ?x] =>
             lazymatch goal with
             | _ : 0 <= len x |- _ => fail
             | _ => pose proof (len_nonneg x)
             end
         | _ : context [len ?x] |- _ =>
             lazymatch goal with
             | _ : 0 <= len x |- _ => fail
             | _ => pose proof (len_nonneg x)
             end
         end.

(** [toggleWrap] keeps the invariant for every non-empty token. *)
Lemma toggleWrap_wf t s e token :
  in_range t s e -> token <> [] ->
  wf_result (toggleWrap t s e token) /\ 0 <= start (selection (toggleWrap t s e token)).
Proof.
  intros (H0 & H1 & H2) Ht.
  destruct (cut t s e H0 H1 H2) as (b & m & a & -> & Hb & Hm).
  rewrite (toggleWrap_cut _ _ _ _ _ token Hb Hm), (wrapCase_cut _ _ _ _ _ token Hb Hm).
  unfold wf_result.
  destruct (endsWith b token && startsWith a token) eqn:Hsur.
  - apply andb_true_iff in Hsur as [Hbe Has].
    apply endsWith_iff in Hbe as [b0 ->]. apply startsWith_iff in Has as [a0 ->].
    rewrite slice_drop_end by assumption. rewrite slice_from_suffix.
    cbn [text selection start end_]. lens. lia.
  - destruct (startsWith m token && endsWith m token && (len token * 2 <=? len m)) eqn:Hin.
    + apply andb_true_iff in Hin as [Hin Hl]. apply andb_true_iff in Hin as [Hms Hme].
      apply Z.leb_le in Hl.
      destruct (wrapped_inv m token Hms Hme ltac:(lia)) as [inner ->].
      rewrite slice_strip_both by assumption.
      cbn [text selection start end_]. lens. lia.
    + cbn [text selection start end_]. lens. lia.
Qed.

(** [toggleWrapAsymmetric] keeps it for every non-empty opening token. *)
Lemma toggleWrapAsymmetric_wf t s e startToken endToken :
  in_range t s e -> startToken <> [] ->
  wf_result (toggleWrapAsymmetric t s e startToken endToken).
Proof.
  intros (H0 & H1 & H2) Ht.
  destruct (cut t s e H0 H1 H2) as (b & m & a & -> & Hb & Hm).
  unfold toggleWrapAsymmetric. cbv zeta.
  destruct (slices_of_cut b m a s e Hb Hm) as (-> & -> & ->).
  unfold wf_result.
  destruct (endsWith b startToken && startsWith a endToken) eqn:Hsur.
  - apply andb_true_iff in Hsur as [Hbe Has].
    apply endsWith_iff in Hbe as [b0 ->]. apply startsWith_iff in Has as [a0 ->].
    rewrite slice_drop_end by assumption. rewrite slice_from_suffix.
    cbn [text selection start end_]. lens. lia.
  - cbn [text selection start end_]. lens. lia.
Qed.

Lemma insertAt_wf t position toInsert :
  0 <= position -> position <= len t ->
  wf_result (insertAt t position toInsert).
Proof.
  intros H0 H1.
  destruct (cut t position position H0 (Z.le_refl _) H1) as (b & m & a & -> & Hb & Hm).
  unfold insertAt. cbv zeta.
  destruct (slices_of_cut b m a position position Hb Hm) as (-> & _ & ->).
  unfold wf_result. cbn [text selection start end_]. lens. lia.
Qed.

Lemma toggleCodeBlock_wf t s e language :
  in_range t s e -> wf_result (toggleCodeBlock t s e language).
Proof.
  intros (H0 & H1 & H2).
  destruct (cut t s e H0 H1 H2) as (b & m & a & -> & Hb & Hm).
  unfold toggleCodeBlock. cbv zeta.
  destruct (slices_of_cut b m a s e Hb Hm) as (-> & -> & ->).
  unfold wf_result.
  destruct (test false fencePattern _ && _);
    cbn [text selection start end_]; lens; lia.
Qed.

Lemma insertMaskedLink_wf t s e url :
  in_range t s e -> wf_result (insertMaskedLink t s e url).
Proof.
  intros (H0 & H1 & H2).
  destruct (cut t s e H0 H1 H2) as (b & m & a & -> & Hb & Hm).
  unfold insertMaskedLink. cbv zeta.
  destruct (slices_of_cut b m a s e Hb Hm) as (-> & -> & ->).
  unfold wf_result.
  set (u := match url with Some u => u | None => lit "url" end).
  set (selected := if truthy m then m else lit "link text").
  destruct (str_eqb u (lit "url"));
    cbn [text selection start end_]; lens;
    change (len (lit "[")) with 1; change (len (lit "](")) with 2;
    change (len (lit ")")) with 1; lia.
Qed.

End InvariantFacts.

(* ====================================================================== *)
(** ** [sanitizeUrl] *)
(* ====================================================================== *)

Module SanitizeFacts.
Import JSFacts Sanitize.

Lemma nonempty_app {A} (l1 l2 : list A) :
  match l1 ++ l2 with [] => false | _ => true end
  = match l1 with [] => false | _ => true end
    || match l2 with [] => false | _ => true end.
Proof. destruct l1; [destruct l2|]; reflexivity. Qed.

Lemma eat_app ic (w1 w2 s : jsstring) :
  eat ic (w1 ++ w2) s
  = match eat ic w1 s with Some r => eat ic w2 r | None => None end.
Proof.
  revert s; induction w1 as [|x w1 IH]; intros s; simpl.
  - reflexivity.
  - destruct s as [|y s]; [reflexivity|].
    destruct (unit_eqb ic x y); [apply IH | reflexivity].
Qed.

Lemma starts_with_ci_eat (s w : jsstring) :
  SpecText.starts_with_ci s w = is_some (eat true w s).
Proof.
  revert s; induction w as [|x w IH]; intros s; simpl.
  - reflexivity.
  - destruct s as [|y s]; [reflexivity|].
    unfold unit_eqb. destruct (N.eqb (canonicalize x) (canonicalize y)); simpl;
      [apply IH | reflexivity].
Qed.

(** A group of alternatives followed by [r3] matches when one of the
    alternatives followed by [r3] does. *)
Lemma test_alt_seq ic r1 r2 r3 s :
  test_anchored ic (Seq (Alt r1 r2) r3) s
  = test_anchored ic (Seq r1 r3) s || test_anchored ic (Seq r2 r3) s.
Proof.
  unfold test_anchored. simpl. rewrite flat_map_app. apply nonempty_app.
Qed.

Lemma test_chars_chars (w1 w2 s : jsstring) :
  test_anchored true (Seq (Chars w1) (Chars w2)) s
  = SpecText.starts_with_ci s (w1 ++ w2).
Proof.
  rewrite starts_with_ci_eat, eat_app. unfold test_anchored. simpl.
  destruct (eat true w1 s) as [r|]; simpl; [|reflexivity].
  rewrite app_nil_r. now destruct (eat true w2 r).
Qed.

Lemma test_chars_opt_chars (w1 w2 w3 s : jsstring) :
  test_anchored true (Seq (Seq (Chars w1) (Opt (Chars w2))) (Chars w3)) s
  = SpecText.starts_with_ci s (w1 ++ w2 ++ w3)
    || SpecText.starts_with_ci s (w1 ++ w3).
Proof.
  rewrite !starts_with_ci_eat, !eat_app. unfold test_anchored. simpl.
  destruct (eat true w1 s) as [r|]; simpl; [|reflexivity].
  rewrite !app_nil_r, eat_app.
  destruct (eat true w2 r) as [r'|]; simpl.
  - destruct (eat true w3 r'); simpl; [reflexivity|].
    now destruct (eat true w3 r).
  - now destruct (eat true w3 r).
Qed.

Lemma blocked_test (t : jsstring) :
  test_anchored true BLOCKED_URI_REGEXP t
  = existsb (SpecText.starts_with_ci t) SpecText.rejected_schemes.
Proof.
  unfold BLOCKED_URI_REGEXP, SpecText.rejected_schemes.
  rewrite !test_alt_seq, !test_chars_chars. cbn [existsb].
  now rewrite orb_false_r.
Qed.

Lemma allowed_test (t : jsstring) :
  test_anchored true ALLOWED_URI_REGEXP t
  = existsb (SpecText.starts_with_ci t) SpecText.allowed_schemes.
Proof.
  unfold ALLOWED_URI_REGEXP, SpecText.allowed_schemes.
  rewrite test_alt_seq, test_chars_opt_chars, test_chars_chars. cbn [existsb].
  change (lit "http" ++ lit "s" ++ lit ":") with (lit "https:").
  change (lit "http" ++ lit ":") with (lit "http:").
  change (lit "mailto" ++ lit ":") with (lit "mailto:").
  rewrite orb_false_r.
  destruct (SpecText.starts_with_ci t (lit "https:")),
           (SpecText.starts_with_ci t (lit "http:")); reflexivity.
Qed.

(** C1. [sanitizeUrl] is the algorithm of section 4.4 run on the trimmed
    input, and the three sample URLs come out as stated. *)
Theorem sanitizeUrl_refines_spec :
  (forall url, sanitizeUrl url = SpecText.sanitize_trimmed (trim url))
  /\ sanitizeUrl (lit "javascript:alert(1)") = []
  /\ sanitizeUrl (lit "example.com") = lit "https://example.com"
  /\ sanitizeUrl (lit "/local") = lit "/local".
Proof.
  split; [|repeat split; vm_compute; reflexivity].
  intro url. unfold sanitizeUrl, SpecText.sanitize_trimmed. cbv zeta.
  rewrite blocked_test, allowed_test.
  destruct (existsb _ SpecText.rejected_schemes); [reflexivity|].
  destruct (existsb _ SpecText.allowed_schemes); reflexivity.
Qed.

End SanitizeFacts.

(* ====================================================================== *)
(** ** Relative time *)
(* ====================================================================== *)

Module RelativeTimeFacts.
Import JSFacts.

(** The loop over the table picks the rung of the ladder and divides by
    the threshold of the rung before it. *)
Lemma scan_units_rung (a : Z) :
  Markdown.scan_units Markdown.units 0 a
  = let '(previousThreshold, unit) := SpecText.rung a in
    let n := a / previousThreshold in
    Some (n, SpecText.pluralize n unit).
Proof.
  unfold Markdown.units, SpecText.rung, SpecText.pluralize.
  cbn [Markdown.scan_units Markdown.below].
  change (60 * 60 * 24 * 365) with 31536000.
  change (60 * 60 * 24 * 30) with 2592000.
  change (60 * 60 * 24) with 86400.
  change (60 * 60) with 3600.
  destruct (a <? 60); [cbn [Nat.ltb Nat.leb]; destruct (a / 1 =? 1); reflexivity|].
  destruct (a <? 3600);
    [change (Markdown.threshold_at (1 - 1)) with 60;
     cbn [Nat.ltb Nat.leb]; destruct (a / 60 =? 1); reflexivity|].
  destruct (a <? 86400);
    [change (Markdown.threshold_at (2 - 1)) with 3600;
     cbn [Nat.ltb Nat.leb]; destruct (a / 3600 =? 1); reflexivity|].
  destruct (a <? 2592000);
    [change (Markdown.threshold_at (3 - 1)) with 86400;
     cbn [Nat.ltb Nat.leb]; destruct (a / 86400 =? 1); reflexivity|].
  destruct (a <? 31536000);
    [change (Markdown.threshold_at (4 - 1)) with 2592000;
     cbn [Nat.ltb Nat.leb]; destruct (a / 2592000 =? 1); reflexivity|].
  change (Markdown.threshold_at (5 - 1)) with 31536000.
  cbn [Nat.ltb Nat.leb]. destruct (a / 31536000 =? 1); reflexivity.
Qed.

(** The formatter of the parser is the style [R] of section 4.3, with
    [now = floor(Date.now() / 1000)]. *)
Lemma markdown_formatRelativeTime_spec (dateNow epoch : Z) :
  Markdown.formatRelativeTime dateNow epoch = SpecText.relative epoch (dateNow / 1000).
Proof.
  unfold Markdown.formatRelativeTime, SpecText.relative. cbv zeta.
  rewrite scan_units_rung.
  destruct (SpecText.rung (Z.abs (epoch - dateNow / 1000))) as [prev unit].
  reflexivity.
Qed.

(** The formatter of the timestamp builder agrees with it whenever the
    two instants differ. *)
Lemma time_formatRelativeTime_spec (dateNow epoch : Z) :
  epoch <> dateNow / 1000 ->
  Time.formatRelativeTime dateNow epoch = SpecText.relative epoch (dateNow / 1000).
Proof.
  intro Hne.
  unfold Time.formatRelativeTime, SpecText.relative, SpecText.rung, Time.render,
    SpecText.pluralize.
  cbv zeta.
  set (diff := epoch - dateNow / 1000). set (a := Z.abs diff).
  assert (Hd : diff <> 0) by (unfold diff; lia).
  assert (H0 : (0 <? diff) = negb (diff <? 0)).
  { destruct (Z.ltb_spec 0 diff), (Z.ltb_spec diff 0); simpl; lia. }
  rewrite H0.
  destruct (a <? 60);
    [rewrite Z.div_1_r; destruct (a =? 1), (diff <? 0); reflexivity|].
  destruct (a <? 3600); [destruct (a / 60 =? 1), (diff <? 0); reflexivity|].
  destruct (a <? 86400); [destruct (a / 3600 =? 1), (diff <? 0); reflexivity|].
  destruct (a <? 2592000); [destruct (a / 86400 =? 1), (diff <? 0); reflexivity|].
  destruct (a <? 31536000); [destruct (a / 2592000 =? 1), (diff <? 0); reflexivity|].
  destruct (a / 31536000 =? 1), (diff <? 0); reflexivity.
Qed.

(** At the instant itself it prints a count of zero seconds. *)
Lemma time_formatRelativeTime_same_instant (dateNow : Z) :
  Time.formatRelativeTime dateNow (dateNow / 1000) = lit "in 0 seconds".
Proof.
  unfold Time.formatRelativeTime. cbv zeta. rewrite Z.sub_diag. reflexivity.
Qed.

(** C2. The formatter of the parser follows the ladder for every input
    ([markdown_formatRelativeTime_spec]) and yields the two sample
    strings; the formatter of the timestamp builder does the same except
    at [diff = 0], where it has no ["now"] case and prints
    ["in 0 seconds"]. *)
Theorem formatRelativeTime_same_instant_diverges :
  Time.formatRelativeTime 1700000000000 1700000000 = lit "in 0 seconds"
  /\ SpecText.relative 1700000000 1700000000 = lit "now"
  /\ Markdown.formatRelativeTime 1700000000000 1700000000 = lit "now"
  /\ Markdown.formatRelativeTime 1699999940000 1700000000 = lit "in 1 minute"
  /\ Time.formatRelativeTime 1699999940000 1700000000 = lit "in 1 minute".
Proof. repeat split; vm_compute; reflexivity. Qed.

End RelativeTimeFacts.

(* ====================================================================== *)
(** ** The timestamp formatter and the ambient clock *)
(* ====================================================================== *)

Module FormatTimestampFacts.
Import JSFacts Markdown.



(** Styles other than [R] do not read the clock at all. *)
Lemma formatTimestamp_absolute_styles hostLocale epoch style dateNow1 dateNow2 :
  style <> lit "R" ->
  formatTimestamp hostLocale dateNow1 epoch style
  = formatTimestamp hostLocale dateNow2 epoch style.
Proof.
  intro H. apply str_eqb_neq in H. unfold formatTimestamp. now rewrite H.
Qed.

End FormatTimestampFacts.

(* ====================================================================== *)
(** ** Searching for one code unit *)
(* ====================================================================== *)

Module SearchFacts.
Import JSFacts.

Lemma startsWith_char (c y : code_unit) (s : jsstring) :
  startsWith (y :: s) [c] = N.eqb c y.
Proof. simpl. apply andb_true_r. Qed.

Lemma find_first_char_app (c : code_unit) (l r : jsstring) :
  ~ In c l -> find_first [c] (l ++ c :: r) = Some (length l).
Proof.
  induction l as [|y l IH]; intro Hn.
  - cbn [app find_first]. rewrite startsWith_char, N.eqb_refl. reflexivity.
  - cbn [app find_first]. rewrite startsWith_char.
    destruct (N.eqb_spec c y) as [->|Hne]; [exfalso; apply Hn; now left|].
    rewrite IH; [reflexivity|]. intro Hin. apply Hn. now right.
Qed.

Lemma find_first_char_none (c : code_unit) (s : jsstring) :
  ~ In c s -> find_first [c] s = None.
Proof.
  induction s as [|y s IH]; intro Hn; [reflexivity|].
  cbn [find_first]. rewrite startsWith_char.
  destruct (N.eqb_spec c y) as [->|Hne]; [exfalso; apply Hn; now left|].
  rewrite IH; [reflexivity|]. intro Hin. apply Hn. now right.
Qed.

(** A string either lacks [c] or splits at its first occurrence. *)
Lemma first_occurrence (c : code_unit) (s : jsstring) :
  ~ In c s \/ exists l r, s = l ++ c :: r /\ ~ In c l.
Proof.
  induction s as [|y s IH]; [left; intros []|].
  destruct (N.eqb_spec c y) as [->|Hne].
  - right. exists [], s. split; [reflexivity | intros []].
  - destruct IH as [Hn | (l & r & -> & Hl)].
    + left. intros [E|Hin]; [now apply Hne | now apply Hn].
    + right. exists (y :: l), r. split; [reflexivity|].
      intros [E|Hin]; [now apply Hne | now apply Hl].
Qed.

(** The clamped start of [indexOf] inside the bounds. *)
Lemma indexOf_at (b r p : jsstring) :
  indexOf (b ++ r) p (len b) =
  match find_first p r with
  | Some i => len b + Z.of_nat i
  | None => -1
  end.
Proof.
  unfold indexOf. rewrite len_app.
  pose proof (len_nonneg b). pose proof (len_nonneg r).
  rewrite Z.max_l, Z.min_l by lia.
  unfold len at 1. rewrite Nat2Z.id, skipn_app, skipn_all, Nat.sub_diag. simpl.
  destruct (find_first p r); [unfold len; lia | reflexivity].
Qed.

Lemma indexOf_char_found (b l r : jsstring) (c : code_unit) :
  ~ In c l -> indexOf (b ++ l ++ c :: r) [c] (len b) = len b + len l.
Proof.
  intro Hn. rewrite indexOf_at, find_first_char_app by assumption. reflexivity.
Qed.

Lemma indexOf_char_missing (b l : jsstring) (c : code_unit) :
  ~ In c l -> indexOf (b ++ l) [c] (len b) = -1.
Proof.
  intro Hn. rewrite indexOf_at, find_first_char_none by assumption. reflexivity.
Qed.



Lemma split_nonempty (sep : code_unit) (s : jsstring) : split sep s <> [].
Proof.
  induction s as [|c s IH]; simpl; [discriminate|].
  destruct (N.eqb c sep); [discriminate|].
  destruct (split sep s); [contradiction | discriminate].
Qed.

End SearchFacts.

(* ====================================================================== *)
(** ** The timestamp rule *)
(* ====================================================================== *)

Module TimestampRuleFacts.
Import JSFacts SearchFacts Markdown.




(** Samples: an epoch that is missing or not a number leaves the state
    as it was; a style is read when present. *)
Lemma discord_timestamp_samples :
  let host : DateMethod -> DateOptions -> Z -> jsstring := fun _ _ _ => lit "date" in
  let st (s : jsstring) := {| src := s; pos := 0; posMax := len s; tokens := [] |} in
  discord_timestamp host 0 (st (lit "<t:>")) false = (false, st (lit "<t:>"))
  /\ discord_timestamp host 0 (st (lit "<t:abc>")) false = (false, st (lit "<t:abc>"))
  /\ discord_timestamp host 0 (st (lit "<t:12")) false = (false, st (lit "<t:12"))
  /\ fst (discord_timestamp host 0 (st (lit "<t:12>")) false) = true.
Proof. cbv zeta. repeat split; vm_compute; reflexivity. Qed.

End TimestampRuleFacts.

(* ====================================================================== *)
(** ** Lines: [split], [join] and blank lines *)
(* ====================================================================== *)

Module LinesFacts.
Import JSFacts SearchFacts.

Lemma split_cons_sep (c : code_unit) (s : jsstring) :
  split c (c :: s) = [] :: split c s.
Proof. cbn [split]. now rewrite N.eqb_refl. Qed.

(** Splitting at the first separator. *)
Lemma split_app (c : code_unit) (l r : jsstring) :
  ~ In c l -> split c (l ++ c :: r) = l :: split c r.
Proof.
  induction l as [|y l IH]; intro Hn.
  - apply split_cons_sep.
  - cbn [app split].
    destruct (N.eqb_spec y c) as [->|Hne]; [exfalso; apply Hn; now left|].
    rewrite IH; [reflexivity|]. intro Hin. apply Hn. now right.
Qed.

Lemma split_no_sep (c : code_unit) (l : jsstring) :
  ~ In c l -> split c l = [l].
Proof.
  induction l as [|y l IH]; intro Hn; [reflexivity|].
  cbn [split].
  destruct (N.eqb_spec y c) as [->|Hne]; [exfalso; apply Hn; now left|].
  rewrite IH; [reflexivity|]. intro Hin. apply Hn. now right.
Qed.

Lemma join_cons (sep x : jsstring) (r : list jsstring) :
  r <> [] -> join sep (x :: r) = x ++ sep ++ join sep r.
Proof. destruct r; [contradiction | reflexivity]. Qed.

(** Joining lines without a newline and splitting again gives the lines
    back. *)
Lemma split_join (c : code_unit) (L : list jsstring) :
  L <> [] -> Forall (fun l => ~ In c l) L -> split c (join [c] L) = L.
Proof.
  induction L as [|x L IH]; intros Hne Hall; [contradiction|].
  inversion Hall as [|? ? Hx HL]; subst.
  destruct L as [|y L].
  - cbn [join]. now apply split_no_sep.
  - rewrite join_cons by discriminate. cbn [app].
    rewrite split_app by assumption. f_equal. apply IH; [discriminate | assumption].
Qed.

Lemma join_split (c : code_unit) (s : jsstring) : join [c] (split c s) = s.
Proof.
  induction s as [|y s IH]; [reflexivity|].
  cbn [split]. destruct (N.eqb_spec y c) as [->|Hne].
  - rewrite join_cons by apply split_nonempty. now rewrite IH.
  - pose proof (split_nonempty c s) as Hn.
    destruct (split c s) as [|l ls]; [contradiction|].
    destruct ls as [|l' ls].
    + cbn [join] in *. now rewrite IH.
    + rewrite join_cons in IH |- * by discriminate. cbn [app]. f_equal. exact IH.
Qed.

Lemma split_lines_clean (c : code_unit) (s : jsstring) :
  Forall (fun l => ~ In c l) (split c s).
Proof.
  induction s as [|y s IH]; [repeat constructor; intros []|].
  cbn [split]. destruct (N.eqb_spec y c) as [->|Hne].
  - constructor; [intros [] | assumption].
  - pose proof (split_nonempty c s) as Hn.
    destruct (split c s) as [|l ls]; [contradiction|].
    inversion IH as [|? ? Hl Hls]; subst.
    constructor; [|assumption].
    intros [E|Hin]; [now apply Hne | now apply Hl].
Qed.

(** *** Blank lines *)

Lemma dropWhile_nil (f : code_unit -> bool) (s : jsstring) :
  dropWhile f s = [] <-> forallb f s = true.
Proof.
  induction s as [|c s IH]; simpl; [tauto|].
  destruct (f c); simpl; [exact IH|]. split; discriminate.
Qed.

Lemma dropWhile_head (f : code_unit -> bool) (s : jsstring) (c : code_unit) (r : jsstring) :
  dropWhile f s = c :: r -> f c = false.
Proof.
  induction s as [|y s IH]; simpl; [discriminate|].
  destruct (f y) eqn:E; [exact IH|]. intro H. inversion H; subst. exact E.
Qed.

Lemma forallb_rev (f : code_unit -> bool) (s : jsstring) :
  forallb f (rev s) = forallb f s.
Proof.
  destruct (forallb f s) eqn:E.
  - apply forallb_forall. intros x Hx. apply in_rev in Hx.
    rewrite forallb_forall in E. now apply E.
  - destruct (forallb f (rev s)) eqn:E'; [|reflexivity].
    rewrite forallb_forall in E'.
    assert (forallb f s = true); [|congruence].
    apply forallb_forall. intros x Hx. apply E'. now apply in_rev in Hx.
Qed.

(** A line trims to the empty string exactly when it is all white. *)
Lemma trim_nil (s : jsstring) : trim s = [] <-> forallb is_ws s = true.
Proof.
  unfold trim, trimEnd, trimStart.
  split.
  - intro H. apply (f_equal (@rev code_unit)) in H. rewrite rev_involutive in H.
    cbn [rev] in H. apply dropWhile_nil in H. rewrite forallb_rev in H.
    destruct (dropWhile is_ws s) as [|c r] eqn:E; [now apply dropWhile_nil|].
    apply dropWhile_head in E. cbn [forallb] in H. rewrite E in H. discriminate.
  - intro H. apply dropWhile_nil in H. rewrite H. reflexivity.
Qed.

Lemma blank_iff (s : jsstring) : str_eqb (trim s) [] = forallb is_ws s.
Proof.
  destruct (forallb is_ws s) eqn:E.
  - apply str_eqb_eq. now apply trim_nil.
  - apply str_eqb_neq. intro H. apply trim_nil in H. congruence.
Qed.

Lemma truthy_trim (s : jsstring) : truthy (trim s) = negb (forallb is_ws s).
Proof.
  rewrite <- blank_iff. now destruct (trim s).
Qed.

End LinesFacts.

(* ====================================================================== *)
(** ** [toggleBlockPrefix]: the expanded region *)
(* ====================================================================== *)

Module RegionFacts.
Import JSFacts SearchFacts LinesFacts Selection.

Lemma find_last_some (p s : jsstring) (k i : nat) :
  find_last p s k = Some i -> (i <= k)%nat /\ startsWith (skipn i s) p = true.
Proof.
  induction k as [|k IH]; cbn [find_last].
  - destruct (startsWith (skipn 0 s) p) eqn:E; [|discriminate].
    intro H. inversion H; subst. split; [lia | exact E].
  - destruct (startsWith (skipn (S k) s) p) eqn:E.
    + intro H. inversion H; subst. split; [lia | exact E].
    + intro H. apply IH in H as [Hle Hs]. split; [lia | exact Hs].
Qed.

Lemma find_last_none (p s : jsstring) (k : nat) :
  find_last p s k = None -> startsWith s p = false.
Proof.
  induction k as [|k IH]; cbn [find_last].
  - cbn [skipn]. destruct (startsWith s p); [discriminate | reflexivity].
  - destruct (startsWith (skipn (S k) s) p); [discriminate | exact IH].
Qed.

Lemma find_last_here (p s : jsstring) (k : nat) :
  startsWith (skipn k s) p = true -> find_last p s k = Some k.
Proof. intro H. destruct k; cbn [find_last]; now rewrite H. Qed.

(** What [lineStart] finds: either offset 0 of a text that does not begin
    with a newline, or the offset just after a newline. *)
Lemma lineStart_cases (t : jsstring) (s : Z) :
  0 <= s -> s <= len t ->
  (lineStart t s = 0 /\ startsWith t [LF] = false)
  \/ (exists b0 rest, t = (b0 ++ [LF]) ++ rest
                      /\ lineStart t s = len (b0 ++ [LF])
                      /\ len b0 <= Z.max (s - 1) 0).
Proof.
  intros H0 H1. unfold lineStart, lastIndexOf.
  change (len [LF]) with 1.
  destruct (Z.ltb_spec (Z.min (Z.max (s - 1) 0) (len t - 1)) 0) as [Hk|Hk].
  - left. split; [reflexivity|].
    assert (len t = 0) by lia.
    replace t with (@nil code_unit) by (symmetry; now apply len_nil_iff).
    reflexivity.
  - destruct (find_last [LF] t _) as [i|] eqn:Hf.
    + right. apply find_last_some in Hf as [Hle Hs].
      apply startsWith_inv in Hs. cbn [length app] in Hs.
      exists (firstn i t), (skipn 1 (skipn i t)).
      assert (Hlen : (i < length t)%nat).
      { destruct (Nat.lt_ge_cases i (length t)) as [Hlt|Hge]; [exact Hlt|].
        rewrite skipn_all2 in Hs by exact Hge. discriminate. }
      split; [|split].
      * rewrite <- app_assoc. cbn [app]. rewrite <- Hs. symmetry. apply firstn_skipn.
      * rewrite len_app. unfold len. rewrite length_firstn. cbn [length]. lia.
      * unfold len. rewrite length_firstn. lia.
    + left. split; [reflexivity|]. now apply find_last_none in Hf.
Qed.

(** What [actualEnd] finds from an offset [len b]: the end of the text
    when no newline follows, the next newline otherwise. *)
Lemma actualEnd_cases (b a : jsstring) :
  (actualEnd (b ++ a) (len b) = len (b ++ a) /\ ~ In LF a)
  \/ (exists l r, a = l ++ LF :: r /\ actualEnd (b ++ a) (len b) = len (b ++ l)).
Proof.
  unfold actualEnd. cbv zeta.
  destruct (first_occurrence LF a) as [Hn | (l & r & -> & Hl)].
  - left. rewrite indexOf_char_missing by assumption. split; [reflexivity | assumption].
  - right. exists l, r. split; [reflexivity|].
    rewrite indexOf_char_found by assumption.
    pose proof (len_nonneg b). pose proof (len_nonneg l).
    destruct (Z.eqb_spec (len b + len l) (-1)); [lia|]. now rewrite len_app.
Qed.

(** The region [toggleBlockPrefix] works on, for a selection in range
    other than the caret at offset 0 before a leading newline. *)
Lemma region_of_selection (t : jsstring) (s e : Z) :
  in_range t s e -> ~ (e = 0 /\ startsWith t [LF] = true) ->
  exists before selected after,
    t = before ++ selected ++ after
    /\ lineStart t s = len before
    /\ actualEnd t e = len before + len selected
    /\ framed before after
    /\ (before = [] -> startsWith t [LF] = false).
Proof.
  intros (H0 & H1 & H2) Hcaret.
  assert (H0' : len (@nil code_unit) <= e) by (change (len (@nil code_unit)) with 0; lia).
  assert (Hstart : exists before rest,
             t = before ++ rest /\ lineStart t s = len before /\ len before <= e
             /\ (before = [] \/ exists b0, before = b0 ++ [LF])
             /\ (before = [] -> startsWith t [LF] = false)).
  { destruct (lineStart_cases t s H0 ltac:(lia)) as [[Hls Hnl] | (b0 & rest & Ht & Hls & Hb0)].
    - exists [], t. split; [reflexivity|]. split; [exact Hls|].
      split; [exact H0'|]. split; [now left | intros _; exact Hnl].
    - exists (b0 ++ [LF]), rest. split; [exact Ht|]. split; [exact Hls|].
      split; [|split; [right; now exists b0|]].
      + rewrite len_app. change (len [LF]) with 1.
        destruct (Z.eq_dec s 0) as [->|Hs].
        * assert (Hb : b0 = []) by (apply len_nil_iff; pose proof (len_nonneg b0); lia).
          subst b0. cbn [app] in Ht.
          assert (e <> 0); [|cbn; lia].
          intro He. apply Hcaret. split; [exact He|]. rewrite Ht. reflexivity.
        * lia.
      + intro Hnil. destruct b0; discriminate. }
  destruct Hstart as (before & rest & Ht & Hls & Hle & Hb & Hlead).
  pose proof (len_nonneg before) as Hbn.
  assert (Hrest : e - len before <= len rest).
  { rewrite Ht, len_app in H2. lia. }
  destruct (cut rest (e - len before) (e - len before) ltac:(lia) (Z.le_refl _) Hrest)
    as (m1 & m0 & a & Hr & Hm1 & Hm0).
  replace m0 with (@nil code_unit) in Hr by (symmetry; apply len_nil_iff; lia).
  cbn [app] in Hr. subst rest.
  assert (He : e = len (before ++ m1)) by (rewrite len_app; lia).
  rewrite app_assoc in Ht.
  destruct (actualEnd_cases (before ++ m1) a) as [[Hae Hn] | (l & r & Ha & Hae)].
  - exists before, (m1 ++ a), []. rewrite app_nil_r.
    split; [now rewrite app_assoc|]. split; [exact Hls|]. split.
    + rewrite He, Ht at 1. rewrite Hae. rewrite !len_app. lia.
    + split; [split; [exact Hb | now left] | exact Hlead].
  - exists before, (m1 ++ l), (LF :: r).
    split; [rewrite Ht, Ha; now rewrite <- !app_assoc|]. split; [exact Hls|]. split.
    + rewrite He, Ht at 1. rewrite Hae. rewrite !len_app. lia.
    + split; [split; [exact Hb | right; now exists r] | exact Hlead].
Qed.

(** A framed region is found again from its own bounds. *)
Lemma region_again (before selected after : jsstring) :
  framed before after ->
  (before = [] -> startsWith (selected ++ after) [LF] = false) ->
  lineStart (before ++ selected ++ after) (len before) = len before
  /\ actualEnd (before ++ selected ++ after) (len before + len selected)
     = len before + len selected.
Proof.
  intros [Hb Ha] Hlead. split.
  - unfold lineStart, lastIndexOf. change (len [LF]) with 1.
    destruct Hb as [-> | (b0 & ->)].
    + cbn [app]. change (len (@nil code_unit)) with 0.
      specialize (Hlead eq_refl).
      destruct (selected ++ after) as [|c r] eqn:E.
      * reflexivity.
      * pose proof (len_nonneg r). 
        replace (len (c :: r)) with (len r + 1) by (unfold len; cbn [length]; lia).
        replace (Z.min (Z.max (0 - 1) 0) (len r + 1 - 1)) with 0 by lia.
        cbn [Z.ltb Z.compare Z.to_nat find_last skipn]. rewrite Hlead. reflexivity.
    + pose proof (len_nonneg b0). pose proof (len_nonneg selected).
      pose proof (len_nonneg after).
      rewrite !len_app. change (len [LF]) with 1.
      replace (Z.min (Z.max (len b0 + 1 - 1) 0) (len b0 + 1 + (len selected + len after) - 1))
        with (len b0) by lia.
      destruct (Z.ltb_spec (len b0) 0); [lia|].
      unfold len at 1. rewrite Nat2Z.id.
      rewrite find_last_here; [unfold len; lia|].
      rewrite <- !app_assoc, skipn_app, skipn_all, Nat.sub_diag. reflexivity.
  - replace (len before + len selected) with (len (before ++ selected))
      by apply len_app.
    rewrite app_assoc. unfold actualEnd. cbv zeta. rewrite indexOf_at.
    destruct Ha as [-> | (a0 & ->)].
    + cbn [find_first startsWith]. cbn [Z.eqb]. now rewrite app_nil_r.
    + cbn [find_first]. rewrite startsWith_char, N.eqb_refl.
      pose proof (len_nonneg (before ++ selected)).
      destruct (Z.eqb_spec (len (before ++ selected) + Z.of_nat 0) (-1)); [lia|].
      cbn [Z.of_nat]. lia.
Qed.

End RegionFacts.

(* ====================================================================== *)
(** ** [toggleBlockPrefix]: the two branches *)
(* ====================================================================== *)

Module BlockPrefixFacts.
Import JSFacts SearchFacts LinesFacts RegionFacts Selection.

(** [toggleBlockPrefix] in terms of its region. *)
Lemma toggleBlockPrefix_on_region (before selected after : jsstring) (s e : Z)
    (prefix : jsstring) :
  let t := before ++ selected ++ after in
  lineStart t s = len before ->
  actualEnd t e = len before + len selected ->
  toggleBlockPrefix t s e prefix =
  let pws := prefix ++ lit " " in
  let L := split LF selected in
  if forallb (hasPrefix pws) L then
    {| text := before ++ join [LF] (map (stripLine pws) L) ++ after;
       selection :=
         {| start := len before;
            end_ := len before + len selected
                    + - len pws * len (filter (fun l => startsWith l pws) L) |} |}
  else
    {| text := before ++ join [LF] (map (addLine pws) L) ++ after;
       selection :=
         {| start := len before;
            end_ := len before + len selected
                    + len pws * len (filter (fun l => truthy (trim l)) L) |} |}.
Proof.
  cbv zeta. intros Hls Hae.
  unfold toggleBlockPrefix. cbv zeta.
  change (lastIndexOf (before ++ selected ++ after) [LF] (s - 1) + 1)
    with (lineStart (before ++ selected ++ after) s).
  change (if indexOf (before ++ selected ++ after) [LF] e =? -1
          then len (before ++ selected ++ after)
          else indexOf (before ++ selected ++ after) [LF] e)
    with (actualEnd (before ++ selected ++ after) e).
  rewrite Hls, Hae.
  destruct (slices_of_cut before selected after (len before) (len before + len selected)
              eq_refl ltac:(lia)) as (-> & -> & ->).
  destruct (forallb (hasPrefix (prefix ++ lit " ")) (split LF selected)); reflexivity.
Qed.

Lemma len_stripLine (pws l : jsstring) :
  len (stripLine pws l) = len l - (if startsWith l pws then len pws else 0).
Proof.
  unfold stripLine. destruct (startsWith l pws) eqn:E; [|lia].
  apply startsWith_iff in E as [r ->].
  rewrite slice_from_suffix, len_app. lia.
Qed.

Lemma stripLine_app (pws r : jsstring) : stripLine pws (pws ++ r) = r.
Proof. unfold stripLine. now rewrite startsWith_app, slice_from_suffix. Qed.

Lemma len_addLine (pws l : jsstring) :
  len (addLine pws l) = len l + (if truthy (trim l) then len pws else 0).
Proof.
  unfold addLine. destruct (truthy (trim l)); [rewrite len_app|]; lia.
Qed.

(** The length of the joined lines after a per-line edit whose effect on
    the length is [d] for the lines [sel] picks and nothing otherwise. *)
Lemma len_join_map (f : jsstring -> jsstring) (sel : jsstring -> bool) (d : Z)
    (L : list jsstring) :
  (forall l, len (f l) = len l + (if sel l then d else 0)) ->
  len (join [LF] (map f L)) = len (join [LF] L) + d * len (filter sel L).
Proof.
  intro Hf. induction L as [|x L IH]; [cbn; lia|].
  destruct L as [|y L].
  - cbn [map join filter]. rewrite Hf. destruct (sel x); cbn; lia.
  - change (map f (x :: y :: L)) with (f x :: map f (y :: L)).
    rewrite !join_cons by discriminate.
    rewrite !len_app, IH, Hf.
    change (filter sel (x :: y :: L))
      with (if sel x then x :: filter sel (y :: L) else filter sel (y :: L)).
    destruct (sel x).
    + replace (len (x :: filter sel (y :: L))) with (1 + len (filter sel (y :: L)))
        by (unfold len; cbn [length]; lia).
      lia.
    + lia.
Qed.

Lemma len_join_strip (pws : jsstring) (L : list jsstring) :
  len (join [LF] (map (stripLine pws) L))
  = len (join [LF] L) + - len pws * len (filter (fun l => startsWith l pws) L).
Proof.
  apply len_join_map. intro l. rewrite len_stripLine.
  destruct (startsWith l pws); lia.
Qed.

Lemma len_join_add (pws : jsstring) (L : list jsstring) :
  len (join [LF] (map (addLine pws) L))
  = len (join [LF] L) + len pws * len (filter (fun l => truthy (trim l)) L).
Proof. apply len_join_map. intro l. apply len_addLine. Qed.

Section OneLine.

Variable prefix : jsstring.
Hypothesis prefix_clean : ~ In LF prefix.
Hypothesis prefix_visible : forallb is_ws prefix = false.

Local Notation "'pws'" := (prefix ++ lit " ").

Lemma blank_not_prefixed (l : jsstring) :
  forallb is_ws l = true -> startsWith l pws = false.
Proof.
  intro Hb. destruct (startsWith l pws) eqn:E; [|reflexivity].
  apply startsWith_iff in E as [r ->].
  rewrite <- app_assoc, forallb_app, prefix_visible in Hb. discriminate.
Qed.

Lemma addLine_hasPrefix (l : jsstring) : hasPrefix pws (addLine pws l) = true.
Proof.
  unfold addLine, hasPrefix. destruct (truthy (trim l)) eqn:E.
  - now rewrite startsWith_app.
  - rewrite truthy_trim in E. rewrite blank_iff.
    destruct (forallb is_ws l); [apply orb_true_r | discriminate].
Qed.

Lemma strip_add (l : jsstring) : stripLine pws (addLine pws l) = l.
Proof.
  unfold addLine. destruct (truthy (trim l)) eqn:E.
  - apply stripLine_app.
  - rewrite truthy_trim in E. unfold stripLine.
    rewrite blank_not_prefixed; [reflexivity|].
    destruct (forallb is_ws l); [reflexivity | discriminate].
Qed.

Lemma add_strip (l : jsstring) :
  hasPrefix pws l = true ->
  negb (startsWith l pws) || truthy (trim (stripLine pws l)) = true ->
  addLine pws (stripLine pws l) = l.
Proof.
  unfold hasPrefix. intros Hp Hr.
  destruct (startsWith l pws) eqn:E.
  - cbn [negb orb] in Hr. unfold addLine. rewrite Hr.
    apply startsWith_iff in E as [r ->]. now rewrite stripLine_app.
  - cbn [orb] in Hp. unfold stripLine. rewrite E. unfold addLine.
    apply str_eqb_eq in Hp. now rewrite Hp.
Qed.

Lemma addLine_clean (l : jsstring) : ~ In LF l -> ~ In LF (addLine pws l).
Proof.
  intros Hl. unfold addLine. destruct (truthy (trim l)); [|exact Hl].
  intro Hin. apply in_app_or in Hin as [Hin|Hin]; [|contradiction].
  apply in_app_or in Hin as [Hin|Hin]; [contradiction|].
  cbn in Hin. destruct Hin as [E|[]]. discriminate.
Qed.

Lemma stripLine_clean (l : jsstring) : ~ In LF l -> ~ In LF (stripLine pws l).
Proof.
  intros Hl. unfold stripLine. destruct (startsWith l pws) eqn:E; [|exact Hl].
  apply startsWith_iff in E as [r ->]. rewrite slice_from_suffix.
  intro Hin. apply Hl. apply in_or_app. now right.
Qed.

Lemma addLine_nil : addLine pws [] = [].
Proof. reflexivity. Qed.

Lemma addLine_nonempty (l : jsstring) : l <> [] -> addLine pws l <> [].
Proof.
  intro Hl. unfold addLine. destruct (truthy (trim l)); [|exact Hl].
  intro H. apply app_eq_nil in H as [_ H]. contradiction.
Qed.

Lemma stripLine_nil : stripLine pws [] = [].
Proof.
  unfold stripLine. destruct (startsWith [] pws) eqn:E; [|reflexivity].
  apply startsWith_length in E. rewrite length_app in E. cbn in E. lia.
Qed.

Lemma stripLine_nonempty (l : jsstring) :
  l <> [] ->
  negb (startsWith l pws) || truthy (trim (stripLine pws l)) = true ->
  stripLine pws l <> [].
Proof.
  intros Hl Hr. destruct (startsWith l pws) eqn:E.
  - cbn [negb orb] in Hr. intro H. rewrite H in Hr. discriminate.
  - unfold stripLine. now rewrite E.
Qed.

End OneLine.

(** Whether the text made of the joined lines and what follows begins
    with a newline is decided by the first line being empty. *)
Lemma lead_of_join (l0 l0' : jsstring) (rest rest' : list jsstring) (after : jsstring) :
  ~ In LF l0 -> ~ In LF l0' ->
  (l0 = [] -> l0' = []) -> (l0 <> [] -> l0' <> []) ->
  (rest = [] <-> rest' = []) ->
  startsWith (join [LF] (l0' :: rest') ++ after) [LF]
  = startsWith (join [LF] (l0 :: rest) ++ after) [LF].
Proof.
  intros Hc Hc' Hnil Hne Hrest.
  destruct l0 as [|c l0].
  - rewrite (Hnil eq_refl).
    destruct rest as [|y rest].
    + rewrite (proj1 Hrest eq_refl). reflexivity.
    + destruct rest' as [|y' rest'];
        [pose proof (proj2 Hrest eq_refl); discriminate|].
      rewrite !join_cons by discriminate. reflexivity.
  - destruct l0' as [|c' l0']; [now contradiction Hne|].
    assert (Hl : N.eqb LF c = false).
    { destruct (N.eqb_spec LF c) as [<-|_]; [exfalso; apply Hc; now left | reflexivity]. }
    assert (Hl' : N.eqb LF c' = false).
    { destruct (N.eqb_spec LF c') as [<-|_]; [exfalso; apply Hc'; now left | reflexivity]. }
    destruct rest, rest'; cbn [join app]; rewrite !startsWith_char; congruence.
Qed.

(** The result of [toggleBlockPrefix] on a framed region given by its
    lines: the same lines edited, and a selection that spans them. *)
Lemma toggle_on_framed_region (before after : jsstring) (L : list jsstring)
    (s e : Z) (prefix : jsstring) :
  let t := before ++ join [LF] L ++ after in
  lineStart t s = len before ->
  actualEnd t e = len before + len (join [LF] L) ->
  L <> [] -> Forall (fun l => ~ In LF l) L ->
  let pws := prefix ++ lit " " in
  let L' := map (if forallb (hasPrefix pws) L then stripLine pws else addLine pws) L in
  toggleBlockPrefix t s e prefix
  = {| text := before ++ join [LF] L' ++ after;
       selection := {| start := len before;
                       end_ := len before + len (join [LF] L') |} |}.
Proof.
  cbv zeta. intros Hls Hae Hne Hclean.
  rewrite (toggleBlockPrefix_on_region before (join [LF] L) after s e prefix Hls Hae).
  cbv zeta. rewrite split_join by assumption.
  destruct (forallb (hasPrefix (prefix ++ lit " ")) L).
  - rewrite len_join_strip. now rewrite Z.add_assoc.
  - rewrite len_join_add. now rewrite Z.add_assoc.
Qed.

(** Outside the caret-before-a-leading-newline case the result of
    [toggleBlockPrefix] keeps the invariant. *)
Lemma toggleBlockPrefix_wf (t : jsstring) (s e : Z) (prefix : jsstring) :
  in_range t s e -> ~ (e = 0 /\ startsWith t [LF] = true) ->
  wf_result (toggleBlockPrefix t s e prefix).
Proof.
  intros Hr Hcaret.
  destruct (region_of_selection t s e Hr Hcaret)
    as (before & selected & after & -> & Hls & Hae & _ & _).
  rewrite <- (join_split LF selected) in Hls, Hae |- *.
  rewrite (toggle_on_framed_region before after (split LF selected) s e prefix Hls Hae
             (split_nonempty _ _) (split_lines_clean _ _)).
  unfold wf_result. cbn [text selection start end_]. rewrite !len_app.
  match goal with |- context [len (join [LF] ?x)] => pose proof (len_nonneg (join [LF] x)) end.
  pose proof (len_nonneg after). lia.
Qed.

(** C9, as stated, fails: stripping the prefix from a line that holds
    nothing else leaves a blank line, which counts as already prefixed,
    so the second application changes nothing. *)
Lemma toggleBlockPrefix_twice_fails :
  in_range (lit "> ") 0 0
  /\ toggleBlockPrefix (lit "> ") 0 0 (lit ">")
     = {| text := []; selection := {| start := 0; end_ := 0 |} |}
  /\ text (toggleBlockPrefix (text (toggleBlockPrefix (lit "> ") 0 0 (lit ">"))) 0 0 (lit ">"))
     = []
  /\ text (toggleBlockPrefix (text (toggleBlockPrefix (lit "> ") 0 0 (lit ">"))) 0 0 (lit ">"))
     <> lit "> ".
Proof.
  repeat split; try (unfold in_range; cbn; lia); try (vm_compute; reflexivity).
  vm_compute. discriminate.
Qed.

(** With the same initial selection the second application can also
    reach other lines than the first. *)
Lemma toggleBlockPrefix_same_selection_drifts :
  in_range (lit "a" ++ [LF] ++ lit "b") 0 2
  /\ text (toggleBlockPrefix (lit "a" ++ [LF] ++ lit "b") 0 2 (lit ">"))
     = lit "> a" ++ [LF] ++ lit "> b"
  /\ text (toggleBlockPrefix
             (text (toggleBlockPrefix (lit "a" ++ [LF] ++ lit "b") 0 2 (lit ">")))
             0 2 (lit ">"))
     = lit "a" ++ [LF] ++ lit "> b".
Proof.
  repeat split; try (unfold in_range; cbn; lia); vm_compute; reflexivity.
Qed.

(** C9, as amended. Take a prefix without a newline that is not all
    white space, and a selection in range other than the caret at offset
    0 of a text that begins with a newline. Applying [toggleBlockPrefix]
    and then applying it again to the selection the first application
    returned gives the original text back, provided that the first
    application adds the prefix (some line of the region is neither blank
    nor prefixed), or that every line it strips stays non-blank and the
    stripped lines are not all blank or prefixed again, or that every
    line of the region is blank. *)
Theorem toggleBlockPrefix_round_trip (t : jsstring) (s e : Z) (prefix : jsstring) :
  in_range t s e ->
  ~ In LF prefix ->
  trim prefix <> [] ->
  ~ (e = 0 /\ startsWith t [LF] = true) ->
  let pws := prefix ++ lit " " in
  let lines := region_lines t s e in
  (forallb (hasPrefix pws) lines = false
   \/ (forallb (fun l => negb (startsWith l pws) || truthy (trim (stripLine pws l))) lines
       = true
       /\ forallb (hasPrefix pws) (map (stripLine pws) lines) = false)
   \/ forallb (fun l => str_eqb (trim l) []) lines = true) ->
  text (toggleBlockPrefix_again (toggleBlockPrefix t s e prefix) prefix) = t.
Proof.
  intros Hr Hclean Hvis Hcaret. cbv zeta.
  assert (Hvis' : forallb is_ws prefix = false).
  { destruct (forallb is_ws prefix) eqn:E; [|reflexivity].
    apply trim_nil in E. contradiction. }
  destruct (region_of_selection t s e Hr Hcaret)
    as (before & selected & after & -> & Hls & Hae & Hfr & Hlead).
  unfold region_lines. rewrite Hls, Hae.
  rewrite (slice_middle before selected after) by reflexivity.
  pose proof (split_nonempty LF selected) as Hne.
  pose proof (split_lines_clean LF selected) as HL.
  assert (Hsel : selected = join [LF] (split LF selected))
    by (symmetry; apply join_split).
  remember (split LF selected) as L eqn:EL. clear EL. subst selected.
  intro Hcase.
  rewrite (toggle_on_framed_region before after L s e prefix Hls Hae Hne HL).
  cbv zeta. unfold toggleBlockPrefix_again. cbn [text selection start end_].
  set (f := if forallb (hasPrefix (prefix ++ lit " ")) L then stripLine (prefix ++ lit " ") else addLine (prefix ++ lit " ")).
  (* the edited lines are again clean lines of a framed region *)
  assert (Hf_clean : forall l, ~ In LF l -> ~ In LF (f l)).
  { intros l Hl. unfold f. destruct (forallb (hasPrefix (prefix ++ lit " ")) L).
    - now apply stripLine_clean.
    - now apply addLine_clean. }
  assert (HL' : Forall (fun l => ~ In LF l) (map f L)).
  { apply Forall_map. eapply Forall_impl; [|exact HL]. exact Hf_clean. }
  assert (Hne' : map f L <> []) by (destruct L; [contradiction | discriminate]).
  assert (Hf_head : forall l0 rest, L = l0 :: rest ->
                      (l0 = [] -> f l0 = []) /\ (l0 <> [] -> f l0 <> [])).
  { intros l0 rest ->. unfold f.
    destruct (forallb (hasPrefix (prefix ++ lit " ")) (l0 :: rest)) eqn:Hall.
    - split; [intros ->; now apply stripLine_nil|].
      intro Hl0. destruct Hcase as [Hc | [[Hc _] | Hc]]; [discriminate| |].
      + cbn [forallb] in Hc. apply andb_true_iff in Hc as [Hc _].
        now apply stripLine_nonempty.
      + cbn [forallb] in Hc. apply andb_true_iff in Hc as [Hc _].
        rewrite blank_iff in Hc. unfold stripLine.
        now rewrite (blank_not_prefixed prefix Hvis' l0 Hc).
    - split; [intros ->; reflexivity | now apply addLine_nonempty]. }
  assert (Hlead' : before = [] -> startsWith (join [LF] (map f L) ++ after) [LF] = false).
  { intro Hb. specialize (Hlead Hb). subst before. cbn [app] in Hlead.
    destruct L as [|l0 rest]; [contradiction|].
    inversion HL as [|? ? Hl0 _]; subst.
    destruct (Hf_head l0 rest eq_refl) as [Hnil Hnn].
    cbn [map]. rewrite (lead_of_join l0 (f l0) rest (map f rest) after); auto.
    split; intro H; [now subst | now destruct rest]. }
  destruct (region_again before (join [LF] (map f L)) after Hfr Hlead') as [Hls' Hae'].
  rewrite (toggle_on_framed_region before after (map f L) _ _ prefix Hls' Hae' Hne' HL').
  cbv zeta. cbn [text]. do 3 f_equal.
  rewrite map_map. transitivity (map (fun x => x) L); [|apply map_id].
  apply map_ext_in. intros l Hin.
  unfold f.
  destruct (forallb (hasPrefix (prefix ++ lit " ")) L) eqn:Hall; cbv beta iota.
  - assert (Hpl : hasPrefix (prefix ++ lit " ") l = true)
      by (rewrite forallb_forall in Hall; now apply Hall).
    destruct Hcase as [Hc | [[Hc Hc'] | Hc]]; [discriminate| |].
    + rewrite Hc'. rewrite forallb_forall in Hc.
      apply add_strip; [exact Hpl | now apply Hc].
    + assert (Hid : forall x, In x L -> stripLine (prefix ++ lit " ") x = x).
      { intros x Hx. rewrite forallb_forall in Hc. specialize (Hc x Hx).
        rewrite blank_iff in Hc. unfold stripLine.
        now rewrite (blank_not_prefixed prefix Hvis' x Hc). }
      replace (map (stripLine (prefix ++ lit " ")) L) with L
        by (symmetry; transitivity (map (fun x => x) L);
            [now apply map_ext_in | apply map_id]).
      rewrite Hall. cbv beta iota. rewrite (Hid l Hin). exact (Hid l Hin).
  - replace (forallb (hasPrefix (prefix ++ lit " ")) (map (addLine (prefix ++ lit " ")) L))
      with true.
    + now apply strip_add.
    + symmetry. apply forallb_forall. intros x Hx. apply in_map_iff in Hx as (y & <- & _).
      now apply addLine_hasPrefix.
Qed.

Lemma toggleBlockPrefix_round_trip_witness :
  text (toggleBlockPrefix_again
          (toggleBlockPrefix (lit "a" ++ [LF] ++ lit "> b") 0 5 (lit ">")) (lit ">"))
  = lit "a" ++ [LF] ++ lit "> b".
Proof.
  apply toggleBlockPrefix_round_trip.
  - unfold in_range; cbn; lia.
  - cbn. intros [H|[]]. discriminate.
  - vm_compute. discriminate.
  - intros [H _]. discriminate.
  - left. vm_compute. reflexivity.
Defined.

End BlockPrefixFacts.

(* ====================================================================== *)
(** ** Where the invariant of the results breaks *)
(* ====================================================================== *)

Module InvariantBroken.
Import JSFacts Selection.

Lemma caret_before_leading_newline :
  toggleBlockPrefix (LF :: lit "abc") 0 0 (lit ">")
  = {| text := LF :: LF :: lit "abc"; selection := {| start := 1; end_ := 0 |} |}.
Proof. vm_compute. reflexivity. Qed.

Lemma empty_token_symmetric :
  toggleWrap (lit "abc") 2 3 []
  = {| text := lit "c"; selection := {| start := 2; end_ := 3 |} |}.
Proof. vm_compute. reflexivity. Qed.

Lemma empty_token_asymmetric :
  toggleWrapAsymmetric (lit "abc") 2 3 [] []
  = {| text := lit "c"; selection := {| start := 2; end_ := 3 |} |}.
Proof. vm_compute. reflexivity. Qed.

(** C5. The invariant holds for [insertAt], [toggleCodeBlock] and
    [insertMaskedLink] on every input in range, for the two wrap toggles
    when the (opening) token is not empty, and for [toggleBlockPrefix]
    except at the caret before a leading newline (module
    [InvariantFacts], [toggleBlockPrefix_wf]). It breaks in the
    remaining cases: at offset 0 of a text that begins with a newline
    [toggleBlockPrefix] returns a selection that starts after its end and
    a text with one more newline, and with an empty token the wrap
    toggles cut the text before the selection and return a selection
    that ends beyond the text. *)
Theorem wrap_result_invariant_broken :
  (in_range (LF :: lit "abc") 0 0
   /\ ~ wf_result (toggleBlockPrefix (LF :: lit "abc") 0 0 (lit ">"))
   /\ text (toggleBlockPrefix (LF :: lit "abc") 0 0 (lit ">")) = LF :: LF :: lit "abc")
  /\ (in_range (lit "abc") 2 3
      /\ ~ wf_result (toggleWrap (lit "abc") 2 3 [])
      /\ ~ wf_result (toggleWrapAsymmetric (lit "abc") 2 3 [] [])).
Proof.
  rewrite caret_before_leading_newline, empty_token_symmetric, empty_token_asymmetric.
  unfold wf_result, in_range. cbn [text selection start end_].
  change (len (lit "abc")) with 3. change (len (lit "c")) with 1.
  change (len (LF :: lit "abc")) with 4.
  repeat split; try lia; intros [H1 H2]; lia.
Qed.

End InvariantBroken.

(* ====================================================================== *)
(** ** More on the selection transforms *)
(* ====================================================================== *)

Module SelectionMore.
Import JSFacts ToggleWrapFacts LinesFacts RegionFacts BlockPrefixFacts Selection.

(** X1. For a non-empty token the result of [toggleWrap] keeps the
    invariant of a selection: [0 <= start <= end <= text.length]. *)
Theorem toggleWrap_selection_in_range t s e token :
  in_range t s e -> token <> [] ->
  let r := toggleWrap t s e token in
  in_range (text r) (start (selection r)) (end_ (selection r)).
Proof.
  intros (H0 & H1 & H2) Ht. cbv zeta. unfold in_range.
  destruct (cut t s e H0 H1 H2) as (b & m & a & -> & Hb & Hm).
  rewrite (toggleWrap_cut _ _ _ _ _ token Hb Hm), (wrapCase_cut _ _ _ _ _ token Hb Hm).
  pose proof (len_nonneg b). pose proof (len_nonneg m). pose proof (len_nonneg a).
  pose proof (len_nonneg token).
  destruct (endsWith b token && startsWith a token) eqn:Hsur.
  - apply andb_true_iff in Hsur as [Hbe Has].
    apply endsWith_iff in Hbe as [b0 ->]. apply startsWith_iff in Has as [a0 ->].
    rewrite slice_drop_end by assumption. rewrite slice_from_suffix.
    cbn [text selection start end_]. rewrite !len_app in *.
    pose proof (len_nonneg b0). pose proof (len_nonneg a0). lia.
  - destruct (startsWith m token && endsWith m token && (len token * 2 <=? len m)) eqn:Hin.
    + apply andb_true_iff in Hin as [Hin Hl]. apply andb_true_iff in Hin as [Hms Hme].
      apply Z.leb_le in Hl.
      destruct (wrapped_inv m token Hms Hme ltac:(lia)) as [inner ->].
      rewrite slice_strip_both by assumption.
      cbn [text selection start end_]. rewrite !len_app in *.
      pose proof (len_nonneg inner). lia.
    + cbn [text selection start end_]. rewrite !len_app in *. lia.
Qed.

Lemma toggleWrap_selection_in_range_witness :
  let r := toggleWrap (lit "a **b** c") 4 5 (lit "**") in
  in_range (text r) (start (selection r)) (end_ (selection r)).
Proof.
  apply toggleWrap_selection_in_range.
  - unfold in_range; cbn; lia.
  - discriminate.
Defined.

(** X2. Except when [toggleWrap] strips markers inside the selection, the
    characters that were selected are exactly the characters selected
    afterwards; when it strips inner markers, what stays selected is the
    old selection without them. *)
Theorem toggleWrap_keeps_selected_text t s e token :
  in_range t s e -> token <> [] ->
  let r := toggleWrap t s e token in
  slice (text r) (start (selection r)) (end_ (selection r))
  = match wrapCase t s e token with
    | Inner => slice t (s + len token) (e - len token)
    | _ => slice t s e
    end.
Proof.
  intros (H0 & H1 & H2) Ht. cbv zeta.
  destruct (cut t s e H0 H1 H2) as (b & m & a & -> & Hb & Hm).
  rewrite (toggleWrap_cut _ _ _ _ _ token Hb Hm), (wrapCase_cut _ _ _ _ _ token Hb Hm).
  destruct (slices_of_cut b m a s e Hb Hm) as (_ & Em & _).
  destruct (endsWith b token && startsWith a token) eqn:Hsur.
  - apply andb_true_iff in Hsur as [Hbe Has].
    apply endsWith_iff in Hbe as [b0 ->]. apply startsWith_iff in Has as [a0 ->].
    rewrite slice_drop_end by assumption. rewrite slice_from_suffix.
    cbn [text selection start end_]. rewrite Em. rewrite len_app in Hb.
    apply slice_middle; lia.
  - destruct (startsWith m token && endsWith m token && (len token * 2 <=? len m)) eqn:Hin.
    + apply andb_true_iff in Hin as [Hin Hl]. apply andb_true_iff in Hin as [Hms Hme].
      apply Z.leb_le in Hl.
      destruct (wrapped_inv m token Hms Hme ltac:(lia)) as [inner ->].
      rewrite slice_strip_both by assumption.
      cbn [text selection start end_]. rewrite !len_app in Hm.
      rewrite (slice_middle b inner a) by lia.
      replace (b ++ (token ++ inner ++ token) ++ a)
        with ((b ++ token) ++ inner ++ (token ++ a)) by now rewrite <- !app_assoc.
      symmetry. apply slice_middle; rewrite len_app; lia.
    + cbn [text selection start end_]. rewrite Em.
      replace (b ++ token ++ m ++ token ++ a) with ((b ++ token) ++ m ++ (token ++ a))
        by now rewrite <- !app_assoc.
      apply slice_middle; rewrite len_app; lia.
Qed.

Lemma toggleWrap_keeps_selected_text_witness :
  let r := toggleWrap (lit "hello world") 0 5 (lit "**") in
  slice (text r) (start (selection r)) (end_ (selection r)) = lit "hello".
Proof.
  cbv zeta.
  rewrite (toggleWrap_keeps_selected_text (lit "hello world") 0 5 (lit "**"));
    [vm_compute; reflexivity | unfold in_range; cbn; lia | discriminate].
Defined.

(** X3. When [toggleWrap] strips the markers inside a selection and the
    next toggle wraps, the text is the original one again, and the new
    selection is the old one without its two markers. *)
Theorem toggleWrap_inner_then_wrap t s e token :
  in_range t s e -> token <> [] ->
  wrapCase t s e token = Inner ->
  (let r1 := toggleWrap t s e token in
   wrapCase (text r1) (start (selection r1)) (end_ (selection r1)) token = Plain) ->
  toggleWrap_again (toggleWrap t s e token) token
  = {| text := t; selection := {| start := s + len token; end_ := e - len token |} |}.
Proof.
  intros (H0 & H1 & H2) Ht Hin Hp. cbv zeta in Hp.
  destruct (cut t s e H0 H1 H2) as (b & m & a & -> & Hb & Hm).
  unfold toggleWrap_again.
  rewrite (toggleWrap_cut _ _ _ _ _ token Hb Hm) in *. rewrite Hin in *.
  cbn [text selection start end_] in Hp |- *.
  rewrite (wrapCase_cut _ _ _ _ _ token Hb Hm) in Hin.
  destruct (endsWith b token && startsWith a token); [discriminate|].
  destruct (startsWith m token && endsWith m token && (len token * 2 <=? len m)) eqn:Hw;
    [|discriminate].
  apply andb_true_iff in Hw as [Hw Hl]. apply andb_true_iff in Hw as [Hms Hme].
  apply Z.leb_le in Hl.
  destruct (wrapped_inv m token Hms Hme ltac:(lia)) as [inner ->].
  rewrite slice_strip_both in * by assumption.
  rewrite !len_app in Hm.
  assert (Hm' : len inner = e - len token * 2 - s) by lia.
  rewrite (toggleWrap_cut _ _ _ _ _ token Hb Hm'), Hp.
  rewrite <- !app_assoc. do 2 f_equal. lia.
Qed.

Lemma toggleWrap_inner_then_wrap_witness :
  toggleWrap_again (toggleWrap (lit "x **a** y") 2 7 (lit "**")) (lit "**")
  = {| text := lit "x **a** y"; selection := {| start := 4; end_ := 5 |} |}.
Proof.
  apply (toggleWrap_inner_then_wrap (lit "x **a** y") 2 7 (lit "**")).
  - unfold in_range; cbn; lia.
  - discriminate.
  - vm_compute. reflexivity.
  - vm_compute. reflexivity.
Defined.

Lemma toggleWrapAsymmetric_cut b m a s e startToken endToken :
  len b = s -> len m = e - s ->
  toggleWrapAsymmetric (b ++ m ++ a) s e startToken endToken =
  if endsWith b startToken && startsWith a endToken then
    {| text := slice b 0 (- len startToken) ++ m ++ slice_from a (len endToken);
       selection := {| start := s - len startToken; end_ := e - len startToken |} |}
  else
    {| text := b ++ startToken ++ m ++ endToken ++ a;
       selection := {| start := s + len startToken; end_ := e + len startToken |} |}.
Proof.
  intros Hb Hm. unfold toggleWrapAsymmetric. cbv zeta.
  destruct (slices_of_cut b m a s e Hb Hm) as (-> & -> & ->). reflexivity.
Qed.

(** X4. [toggleWrapAsymmetric] with a non-empty opening token: when the
    first application wraps, or when it unwraps and the second one wraps,
    applying it twice restores the text and the selection. *)
Theorem toggleWrapAsymmetric_round_trip t s e startToken endToken :
  in_range t s e -> startToken <> [] ->
  let r1 := toggleWrapAsymmetric t s e startToken endToken in
  (endsWith (slice t 0 s) startToken && startsWith (slice_from t e) endToken = false
   \/ endsWith (slice (text r1) 0 (start (selection r1))) startToken
      && startsWith (slice_from (text r1) (end_ (selection r1))) endToken = false) ->
  toggleWrapAsymmetric (text r1) (start (selection r1)) (end_ (selection r1))
    startToken endToken
  = {| text := t; selection := {| start := s; end_ := e |} |}.
Proof.
  intros (H0 & H1 & H2) Ht. cbv zeta.
  destruct (cut t s e H0 H1 H2) as (b & m & a & -> & Hb & Hm).
  rewrite (toggleWrapAsymmetric_cut b m a s e startToken endToken Hb Hm).
  destruct (slices_of_cut b m a s e Hb Hm) as (-> & _ & ->).
  destruct (endsWith b startToken && startsWith a endToken) eqn:Hw;
    cbn [text selection start end_].
  - intros [Hc|Hc]; [discriminate|].
    apply andb_true_iff in Hw as [Hbe Has].
    apply endsWith_iff in Hbe as [b0 ->]. apply startsWith_iff in Has as [a0 ->].
    rewrite slice_drop_end in * by assumption. rewrite slice_from_suffix in *.
    rewrite len_app in Hb.
    assert (Hb0 : len b0 = s - len startToken) by lia.
    assert (Hm0 : len m = e - len startToken - (s - len startToken)) by lia.
    rewrite (toggleWrapAsymmetric_cut b0 m a0 _ _ startToken endToken Hb0 Hm0).
    destruct (slices_of_cut b0 m a0 _ _ Hb0 Hm0) as (E1 & _ & E3).
    rewrite E1, E3 in Hc. rewrite Hc.
    rewrite <- !app_assoc. do 2 f_equal; lia.
  - intros _.
    replace (b ++ startToken ++ m ++ endToken ++ a)
      with ((b ++ startToken) ++ m ++ (endToken ++ a)) by now rewrite <- !app_assoc.
    assert (Hb' : len (b ++ startToken) = s + len startToken) by (rewrite len_app; lia).
    assert (Hm' : len m = e + len startToken - (s + len startToken)) by lia.
    rewrite (toggleWrapAsymmetric_cut _ _ _ _ _ startToken endToken Hb' Hm').
    rewrite endsWith_app, startsWith_app. cbn [andb].
    rewrite slice_drop_end by assumption. rewrite slice_from_suffix.
    do 2 f_equal; lia.
Qed.

Lemma toggleWrapAsymmetric_round_trip_witness :
  let r1 := toggleWrapAsymmetric (lit "see here") 4 8 (lit "[") (lit "](url)") in
  toggleWrapAsymmetric (text r1) (start (selection r1)) (end_ (selection r1))
    (lit "[") (lit "](url)")
  = {| text := lit "see here"; selection := {| start := 4; end_ := 8 |} |}.
Proof.
  apply (toggleWrapAsymmetric_round_trip (lit "see here") 4 8 (lit "[") (lit "](url)")).
  - unfold in_range; cbn; lia.
  - discriminate.
  - left. vm_compute. reflexivity.
Defined.

(** X5. [insertAt] at a position inside the text puts the inserted
    string at that position, leaves everything else in place, and returns
    a caret right after it. *)
Theorem insertAt_result t position toInsert :
  0 <= position -> position <= len t ->
  let r := insertAt t position toInsert in
  slice (text r) 0 position = slice t 0 position
  /\ slice (text r) position (position + len toInsert) = toInsert
  /\ slice_from (text r) (position + len toInsert) = slice_from t position
  /\ len (text r) = len t + len toInsert
  /\ selection r = {| start := position + len toInsert; end_ := position + len toInsert |}.
Proof.
  intros H0 H1. cbv zeta.
  destruct (cut t position position H0 (Z.le_refl _) H1) as (b & m & a & -> & Hb & Hm).
  replace m with (@nil code_unit) by (symmetry; apply len_nil_iff; lia).
  cbn [app]. unfold insertAt. cbv zeta. cbn [text selection].
  rewrite <- Hb. rewrite !slice_prefix, !slice_from_suffix.
  split; [reflexivity|]. split; [now apply slice_middle|].
  split.
  - replace (len b + len toInsert) with (len (b ++ toInsert)) by apply len_app.
    rewrite app_assoc. apply slice_from_suffix.
  - split; [rewrite !len_app; lia | reflexivity].
Qed.

Lemma insertAt_result_witness :
  text (insertAt (lit "ab") 1 (lit "XY")) = lit "aXYb"
  /\ slice (text (insertAt (lit "ab") 1 (lit "XY"))) 1 (1 + len (lit "XY")) = lit "XY".
Proof.
  split; [vm_compute; reflexivity|].
  apply (insertAt_result (lit "ab") 1 (lit "XY")); cbn; lia.
Defined.

(** X6. [toggleCodeBlock] always wraps, whether or not a fence is
    detected around the selection: the text gains an opening fence with
    the language and a closing fence, the selected characters stay
    selected, and the invariant of the result holds. *)
Theorem toggleCodeBlock_always_wraps t s e language :
  in_range t s e ->
  let lang := match language with Some l => l | None => [] end in
  let r := toggleCodeBlock t s e language in
  text r = slice t 0 s ++ (lit "```" ++ lang ++ [LF]) ++ slice t s e
             ++ ([LF] ++ lit "```") ++ slice_from t e
  /\ slice (text r) (start (selection r)) (end_ (selection r)) = slice t s e
  /\ wf_result r.
Proof.
  intros Hr. cbv zeta. split; [|split].
  - unfold toggleCodeBlock. cbv zeta.
    destruct (test false fencePattern _ && _); reflexivity.
  - destruct Hr as (H0 & H1 & H2).
    destruct (cut t s e H0 H1 H2) as (b & m & a & -> & Hb & Hm).
    unfold toggleCodeBlock. cbv zeta.
    destruct (slices_of_cut b m a s e Hb Hm) as (-> & -> & ->).
    assert (Hs : forall fence close : jsstring,
               slice (b ++ fence ++ m ++ close ++ a) (s + len fence) (e + len fence) = m).
    { intros fence close.
      replace (b ++ fence ++ m ++ close ++ a) with ((b ++ fence) ++ m ++ (close ++ a))
        by now rewrite <- !app_assoc.
      apply slice_middle; rewrite len_app; lia. }
    destruct (test false fencePattern _ && _); cbn [text selection start end_]; apply Hs.
  - now apply InvariantFacts.toggleCodeBlock_wf.
Qed.

Lemma toggleCodeBlock_always_wraps_witness :
  slice (text (toggleCodeBlock (lit "a b c") 2 3 (Some (lit "js"))))
        (start (selection (toggleCodeBlock (lit "a b c") 2 3 (Some (lit "js")))))
        (end_ (selection (toggleCodeBlock (lit "a b c") 2 3 (Some (lit "js")))))
  = lit "b".
Proof.
  destruct (toggleCodeBlock_always_wraps (lit "a b c") 2 3 (Some (lit "js")))
    as (_ & H & _); [unfold in_range; cbn; lia|].
  cbv zeta in H. rewrite H. vm_compute. reflexivity.
Defined.

End SelectionMore.

(* ====================================================================== *)
(** ** More on [toggleBlockPrefix] *)
(* ====================================================================== *)

Module BlockPrefixMore.
Import JSFacts SearchFacts LinesFacts RegionFacts BlockPrefixFacts Selection.

(** The number of newlines in a string. *)
Lemma no_newline_filter (l : jsstring) :
  ~ In LF l -> filter (N.eqb LF) l = [].
Proof.
  induction l as [|c l IH]; intro Hn; [reflexivity|].
  cbn [filter]. destruct (N.eqb_spec LF c) as [E|_];
    [exfalso; apply Hn; left; now symmetry|].
  apply IH. intro H. apply Hn. now right.
Qed.

Lemma newlines_of_join (L : list jsstring) :
  L <> [] -> Forall (fun l => ~ In LF l) L ->
  length (filter (N.eqb LF) (join [LF] L)) = (length L - 1)%nat.
Proof.
  induction L as [|x L IH]; intros Hne Hall; [contradiction|].
  inversion Hall as [|? ? Hx HL]; subst.
  destruct L as [|y L].
  - cbn [join]. rewrite no_newline_filter by assumption. reflexivity.
  - rewrite join_cons by discriminate.
    rewrite !filter_app, !length_app, no_newline_filter by assumption.
    pose proof (IH ltac:(discriminate) HL) as IH'.
    cbn [filter length N.eqb LF app] in *. rewrite Pos.eqb_refl. cbn [length] in *.
    unfold jsstring, code_unit in *. lia.
Qed.



(** X8. With a prefix that holds no newline, and outside the caret before
    a leading newline, [toggleBlockPrefix] never adds or removes a line:
    the text has as many newlines afterwards as before. *)
Theorem toggleBlockPrefix_keeps_line_count t s e prefix :
  in_range t s e -> ~ (e = 0 /\ startsWith t [LF] = true) ->
  ~ In LF prefix ->
  length (filter (N.eqb LF) (text (toggleBlockPrefix t s e prefix)))
  = length (filter (N.eqb LF) t).
Proof.
  intros Hr Hcaret Hclean.
  destruct (region_of_selection t s e Hr Hcaret)
    as (before & selected & after & -> & Hls & Hae & _ & _).
  pose proof (split_nonempty LF selected) as Hne.
  pose proof (split_lines_clean LF selected) as HL.
  assert (Hsel : selected = join [LF] (split LF selected))
    by (symmetry; apply join_split).
  remember (split LF selected) as L eqn:EL. clear EL. subst selected.
  rewrite (toggle_on_framed_region before after L s e prefix Hls Hae Hne HL).
  cbv zeta. cbn [text].
  rewrite !filter_app, !length_app. f_equal. f_equal.
  rewrite !newlines_of_join; try assumption.
  - now rewrite length_map.
  - destruct L; [contradiction | discriminate].
  - apply Forall_map. eapply Forall_impl; [|exact HL].
    intros l Hl. cbv beta.
    destruct (forallb (hasPrefix (prefix ++ lit " ")) L).
    + now apply stripLine_clean.
    + now apply addLine_clean.
Qed.

Lemma toggleBlockPrefix_keeps_line_count_witness :
  length (filter (N.eqb LF)
            (text (toggleBlockPrefix (lit "a" ++ [LF] ++ lit "b") 0 3 (lit "-"))))
  = 1%nat.
Proof.
  rewrite (toggleBlockPrefix_keeps_line_count (lit "a" ++ [LF] ++ lit "b") 0 3 (lit "-")).
  - vm_compute. reflexivity.
  - unfold in_range; cbn; lia.
  - intros [H _]. discriminate.
  - cbn. intros [H|[]]. discriminate.
Defined.

End BlockPrefixMore.

(* ====================================================================== *)
(** ** More on [sanitizeUrl] *)
(* ====================================================================== *)

Module SanitizeMore.
Import JSFacts LinesFacts Sanitize.

Lemma dropWhile_keeps (f : code_unit -> bool) (c : code_unit) (r : jsstring) :
  f c = false -> dropWhile f (c :: r) = c :: r.
Proof. intro H. cbn [dropWhile]. now rewrite H. Qed.

Lemma dropWhile_idem (f : code_unit -> bool) (s : jsstring) :
  dropWhile f (dropWhile f s) = dropWhile f s.
Proof.
  destruct (dropWhile f s) as [|c r] eqn:E; [reflexivity|].
  apply dropWhile_keeps. now apply dropWhile_head in E.
Qed.

Lemma dropWhile_suffix (f : code_unit -> bool) (s : jsstring) :
  exists pre, s = pre ++ dropWhile f s.
Proof.
  induction s as [|c s [pre IH]]; [now exists []|].
  cbn [dropWhile]. destruct (f c).
  - exists (c :: pre). cbn [app]. now f_equal.
  - now exists [].
Qed.

(** A string with nothing to trim at either end is left alone. *)
Lemma trim_tight (x : jsstring) :
  dropWhile is_ws x = x -> dropWhile is_ws (rev x) = rev x -> trim x = x.
Proof.
  intros H1 H2. unfold trim, trimEnd, trimStart. rewrite H1, H2. apply rev_involutive.
Qed.

(** What [trim] returns has nothing left to trim. *)
Lemma trim_is_tight (s : jsstring) :
  dropWhile is_ws (trim s) = trim s
  /\ dropWhile is_ws (rev (trim s)) = rev (trim s).
Proof.
  unfold trim, trimEnd, trimStart.
  set (t := dropWhile is_ws s).
  split; [|rewrite rev_involutive; apply dropWhile_idem].
  destruct (dropWhile_suffix is_ws (rev t)) as [pre Hpre].
  apply (f_equal (@rev code_unit)) in Hpre.
  rewrite rev_involutive, rev_app_distr in Hpre.
  destruct (rev (dropWhile is_ws (rev t))) as [|c r] eqn:E; [reflexivity|].
  apply dropWhile_keeps.
  cbn [app] in Hpre.
  assert (Ht : dropWhile is_ws s = c :: r ++ rev pre) by (fold t; exact Hpre).
  now apply dropWhile_head in Ht.
Qed.

Lemma trim_idem (s : jsstring) : trim (trim s) = trim s.
Proof. destruct (trim_is_tight s). now apply trim_tight. Qed.

(** Trimming does nothing to ["https://"] followed by a trimmed string. *)
Lemma trim_https (s : jsstring) :
  trim (lit "https://" ++ trim s) = lit "https://" ++ trim s.
Proof.
  destruct (trim_is_tight s) as [_ H2].
  apply trim_tight; [reflexivity|].
  rewrite rev_app_distr.
  destruct (rev (trim s)) as [|c r] eqn:E; [reflexivity|].
  cbn [app]. apply dropWhile_keeps.
  rewrite <- E in H2. rewrite E in H2. now apply dropWhile_head in H2.
Qed.

(** X9. Whatever the input, the result of [sanitizeUrl] does not begin
    with one of the blocked schemes [javascript:], [data:], [vbscript:],
    in any letter case. *)
Theorem sanitizeUrl_never_blocked (url : jsstring) :
  test_anchored true BLOCKED_URI_REGEXP (sanitizeUrl url) = false.
Proof.
  unfold sanitizeUrl. cbv zeta.
  destruct (test_anchored true BLOCKED_URI_REGEXP (trim url)) eqn:Hb; [reflexivity|].
  destruct (test_anchored true ALLOWED_URI_REGEXP (trim url)
            || startsWith (trim url) (lit "/") || startsWith (trim url) (lit "#"));
    [exact Hb|].
  destruct (negb (includes (trim url) (lit "://"))); reflexivity.
Qed.

(** X10. Every non-empty result of [sanitizeUrl] begins with [http:],
    [https:] or [mailto:] (in any letter case), or with [/] or [#]. *)
Theorem sanitizeUrl_result_allowed (url : jsstring) :
  sanitizeUrl url = []
  \/ test_anchored true ALLOWED_URI_REGEXP (sanitizeUrl url)
     || startsWith (sanitizeUrl url) (lit "/")
     || startsWith (sanitizeUrl url) (lit "#") = true.
Proof.
  unfold sanitizeUrl. cbv zeta.
  destruct (test_anchored true BLOCKED_URI_REGEXP (trim url)); [now left|].
  destruct (test_anchored true ALLOWED_URI_REGEXP (trim url)
            || startsWith (trim url) (lit "/") || startsWith (trim url) (lit "#")) eqn:Ha;
    [right; exact Ha|].
  destruct (negb (includes (trim url) (lit "://"))); [right; reflexivity | now left].
Qed.

(** X11. [sanitizeUrl] is idempotent on what it accepts: sanitizing a
    non-empty result again returns it unchanged. *)
Theorem sanitizeUrl_stable_on_accepted (url : jsstring) :
  sanitizeUrl url <> [] ->
  sanitizeUrl (sanitizeUrl url) = sanitizeUrl url.
Proof.
  unfold sanitizeUrl at 1 3 4. cbv zeta.
  destruct (test_anchored true BLOCKED_URI_REGEXP (trim url)) eqn:Hb; [contradiction|].
  destruct (test_anchored true ALLOWED_URI_REGEXP (trim url)
            || startsWith (trim url) (lit "/") || startsWith (trim url) (lit "#")) eqn:Ha.
  - intros _. unfold sanitizeUrl. cbv zeta. now rewrite trim_idem, Hb, Ha.
  - destruct (negb (includes (trim url) (lit "://"))); [|contradiction].
    intros _. unfold sanitizeUrl. cbv zeta. rewrite trim_https. reflexivity.
Qed.

Lemma sanitizeUrl_stable_on_accepted_witness :
  sanitizeUrl (sanitizeUrl (lit " example.com ")) = lit "https://example.com".
Proof.
  rewrite (sanitizeUrl_stable_on_accepted (lit " example.com ")).
  - vm_compute. reflexivity.
  - vm_compute. discriminate.
Defined.

(** X12. An empty or all-white input is not rejected: it comes back as
    the bare scheme ["https://"]. *)
Theorem sanitizeUrl_blank_input (url : jsstring) :
  forallb is_ws url = true -> sanitizeUrl url = lit "https://".
Proof.
  intro H. apply trim_nil in H. unfold sanitizeUrl. cbv zeta. rewrite H. reflexivity.
Qed.

Lemma sanitizeUrl_blank_input_witness :
  sanitizeUrl (lit "   ") = lit "https://" /\ sanitizeUrl [] = lit "https://".
Proof.
  split; apply sanitizeUrl_blank_input; reflexivity.
Defined.

End SanitizeMore.

(* ====================================================================== *)
(** ** The underline and spoiler rules *)
(* ====================================================================== *)

Module DelimiterRuleFacts.
Import JSFacts Markdown MarkdownRules.

Lemma scan_closing_some marker src pos fuel p :
  scan_closing marker src pos fuel = Some p ->
  pos <= p < pos + Z.of_nat fuel
  /\ code_is src p marker && code_is src (p + 1) marker = true
  /\ (forall q, pos <= q < p ->
        code_is src q marker && code_is src (q + 1) marker = false).
Proof.
  revert pos. induction fuel as [|fuel IH]; intros pos H; [discriminate|].
  cbn [scan_closing] in H.
  destruct (code_is src pos marker && code_is src (pos + 1) marker) eqn:E.
  - inversion H; subst p. split; [lia|]. split; [exact E|]. intros q Hq. lia.
  - apply IH in H as (Hr & Hp & Hq). split; [lia|]. split; [exact Hp|].
    intros q Hqr. destruct (Z.eq_dec q pos) as [->|Hne]; [exact E|]. apply Hq. lia.
Qed.

Lemma scan_closing_none marker src pos fuel :
  scan_closing marker src pos fuel = None ->
  forall q, pos <= q < pos + Z.of_nat fuel ->
    code_is src q marker && code_is src (q + 1) marker = false.
Proof.
  revert pos. induction fuel as [|fuel IH]; intros pos H q Hq; [lia|].
  cbn [scan_closing] in H.
  destruct (code_is src pos marker && code_is src (pos + 1) marker) eqn:E; [discriminate|].
  destruct (Z.eq_dec q pos) as [->|Hne]; [exact E|]. apply (IH (pos + 1) H). lia.
Qed.

(** X13. The underline rule matches exactly when two underscores stand at
    the cursor, more than four code units are left before [posMax], and
    another pair of underscores begins at or after [pos + 2] and before
    [posMax - 1]. On a match the cursor moves past the first such pair
    and, unless silent, an open token, a text token holding what lies
    between the pairs, and a close token are pushed; without a match the
    state is returned untouched. *)
Theorem discord_underline_matches (state : StateInline) (silent : bool) :
  let start := pos state in
  let pair q := code_is (src state) q 95%N && code_is (src state) (q + 1) 95%N in
  let r := discord_underline state silent in
  (fst r = true <->
     pair start = true /\ start + 4 < posMax state
     /\ exists p, start + 2 <= p < posMax state - 1 /\ pair p = true)
  /\ (fst r = false -> snd r = state)
  /\ (fst r = true ->
      exists p,
        start + 2 <= p < posMax state - 1 /\ pair p = true
        /\ (forall q, start + 2 <= q < p -> pair q = false)
        /\ snd r =
           {| src := src state; pos := p + 2; posMax := posMax state;
              tokens :=
                if silent then tokens state
                else tokens state ++
                     [ mkToken (lit "underline_open") (lit "u") 1 (lit "__") [] [];
                       mkToken (lit "text") [] 0 [] [] (slice (src state) (start + 2) p);
                       mkToken (lit "underline_close") (lit "u") (-1) (lit "__") [] [] ]
           |}).
Proof.
  cbv zeta. unfold discord_underline. cbv zeta.
  destruct (code_is (src state) (pos state) 95%N) eqn:E0; cbn [negb andb].
  2:{ cbn [fst snd]. repeat split; try discriminate. intros (H & _); discriminate. }
  destruct (Z.leb_spec (posMax state) (pos state + 4)) as [Hshort|Hlong].
  { cbn [fst snd]. repeat split; try discriminate. intros (_ & H & _); lia. }
  destruct (code_is (src state) (pos state + 1) 95%N) eqn:E1; cbn [negb].
  2:{ cbn [fst snd]. repeat split; try discriminate. intros (H & _); discriminate. }
  destruct (scan_closing 95%N (src state) (pos state + 2)
              (Z.to_nat (posMax state - 1 - (pos state + 2)))) as [p|] eqn:Hscan.
  - apply scan_closing_some in Hscan as (Hr & Hp & Hq).
    rewrite Z2Nat.id in Hr by lia.
    cbn [fst snd]. split; [|split; [discriminate|]].
    + split; [intros _|reflexivity]. repeat split; [lia|]. exists p. split; [lia | exact Hp].
    + intros _. exists p. repeat split; try lia; assumption.
  - cbn [fst snd]. split; [|split; [reflexivity | discriminate]].
    split; [discriminate|]. intros (_ & _ & p & Hp & Hpair).
    rewrite (scan_closing_none _ _ _ _ Hscan p) in Hpair; [discriminate|].
    rewrite Z2Nat.id by lia. lia.
Qed.

(** X14. The spoiler rule matches on the same condition with [|] as the
    marker, and its open token carries the class, the tab index, the
    role and the label that make the spoiler a focusable button. *)
Theorem discord_spoiler_matches (state : StateInline) (silent : bool) :
  let start := pos state in
  let pair q := code_is (src state) q 124%N && code_is (src state) (q + 1) 124%N in
  let r := discord_spoiler state silent in
  (fst r = true <->
     pair start = true /\ start + 4 < posMax state
     /\ exists p, start + 2 <= p < posMax state - 1 /\ pair p = true)
  /\ (fst r = false -> snd r = state)
  /\ (fst r = true ->
      exists p,
        start + 2 <= p < posMax state - 1 /\ pair p = true
        /\ (forall q, start + 2 <= q < p -> pair q = false)
        /\ snd r =
           {| src := src state; pos := p + 2; posMax := posMax state;
              tokens :=
                if silent then tokens state
                else tokens state ++
                     [ mkToken (lit "spoiler_open") (lit "span") 1 (lit "||")
                         [ (lit "class", lit "spoiler"); (lit "tabindex", lit "0");
                           (lit "role", lit "button");
                           (lit "aria-label", lit "Spoiler (click to reveal)") ] [];
                       mkToken (lit "text") [] 0 [] [] (slice (src state) (start + 2) p);
                       mkToken (lit "spoiler_close") (lit "span") (-1) (lit "||") [] [] ]
           |}).
Proof.
  cbv zeta. unfold discord_spoiler. cbv zeta.
  destruct (code_is (src state) (pos state) 124%N) eqn:E0; cbn [negb andb].
  2:{ cbn [fst snd]. repeat split; try discriminate. intros (H & _); discriminate. }
  destruct (code_is (src state) (pos state + 1) 124%N) eqn:E1; cbn [negb].
  2:{ cbn [fst snd]. repeat split; try discriminate. intros (H & _); discriminate. }
  destruct (Z.leb_spec (posMax state) (pos state + 4)) as [Hshort|Hlong].
  { cbn [fst snd]. repeat split; try discriminate. intros (_ & H & _); lia. }
  destruct (scan_closing 124%N (src state) (pos state + 2)
              (Z.to_nat (posMax state - 1 - (pos state + 2)))) as [p|] eqn:Hscan.
  - apply scan_closing_some in Hscan as (Hr & Hp & Hq).
    rewrite Z2Nat.id in Hr by lia.
    cbn [fst snd]. split; [|split; [discriminate|]].
    + split; [intros _|reflexivity]. repeat split; [lia|]. exists p. split; [lia | exact Hp].
    + intros _. exists p. repeat split; try lia; assumption.
  - cbn [fst snd]. split; [|split; [reflexivity | discriminate]].
    split; [discriminate|]. intros (_ & _ & p & Hp & Hpair).
    rewrite (scan_closing_none _ _ _ _ Hscan p) in Hpair; [discriminate|].
    rewrite Z2Nat.id by lia. lia.
Qed.

(** The two samples of the specification, and the shortest match: a run
    of five underscores is an underline with nothing in it. *)
Lemma discord_underline_samples :
  let st (s : jsstring) := {| src := s; pos := 0; posMax := len s; tokens := [] |} in
  discord_underline (st (lit "___")) false = (false, st (lit "___"))
  /\ discord_underline (st (lit "____")) false = (false, st (lit "____"))
  /\ map content (tokens (snd (discord_underline (st (lit "__u__")) false)))
     = [[]; lit "u"; []]
  /\ map content (tokens (snd (discord_underline (st (lit "_____")) false)))
     = [[]; []; []].
Proof. cbv zeta. repeat split; vm_compute; reflexivity. Qed.

End DelimiterRuleFacts.

(* ====================================================================== *)
(** ** Printing an integer and reading it back *)
(* ====================================================================== *)

Module DecimalStringFacts.
Import JSFacts.

Lemma lit_String (c : ascii) (s : string) : lit (String c s) = N_of_ascii c :: lit s.
Proof. reflexivity. Qed.

Local Notation "'step'" := (fun (acc : Z) (c : code_unit) => 10 * acc + (Z.of_N c - 48)).

Lemma digits_value_fold (ds : jsstring) : digits_value ds = fold_left step ds 0.
Proof. reflexivity. Qed.

Ltac ascii_code :=
  match goal with
  | |- context [N_of_ascii ?c] =>
      let v := eval vm_compute in (N_of_ascii c) in change (N_of_ascii c) with v
  end.

Ltac digit_case IH :=
  rewrite lit_String; cbn [fold_left Pos.of_uint_acc]; rewrite <- IH;
  f_equal; ascii_code; lia.

Lemma fold_digits_acc (d : Decimal.uint) (acc : positive) :
  fold_left step (lit (NilEmpty.string_of_uint d)) (Z.pos acc)
  = Z.pos (Pos.of_uint_acc d acc).
Proof.
  revert acc. induction d as [|d IH|d IH|d IH|d IH|d IH|d IH|d IH|d IH|d IH|d IH];
    intro acc; cbn [NilEmpty.string_of_uint]; [reflexivity | digit_case IH ..].
Qed.

Ltac lead_case :=
  rewrite lit_String; cbn [fold_left Pos.of_uint Z.of_N];
  rewrite <- fold_digits_acc; f_equal; ascii_code; lia.

Lemma fold_digits (d : Decimal.uint) :
  fold_left step (lit (NilEmpty.string_of_uint d)) 0 = Z.of_N (Pos.of_uint d).
Proof.
  induction d as [|d IH|d IH|d IH|d IH|d IH|d IH|d IH|d IH|d IH|d IH];
    cbn [NilEmpty.string_of_uint]; [reflexivity | | lead_case ..].
  rewrite lit_String. cbn [fold_left Pos.of_uint]. rewrite <- IH.
  f_equal.
Qed.

(** The digits of a printed number: all decimal, at least one. *)
Lemma printed_digits (d : Decimal.uint) :
  Forall (fun c => is_digit c = true) (lit (NilEmpty.string_of_uint d)).
Proof.
  induction d; cbn [NilEmpty.string_of_uint]; [constructor | ..];
    rewrite lit_String; constructor; solve [reflexivity | assumption].
Qed.

Lemma printed_nonempty (d : Decimal.uint) :
  d <> Decimal.Nil -> lit (NilEmpty.string_of_uint d) <> [].
Proof. destruct d; intro H; try contradiction; discriminate. Qed.

Lemma takeWhile_all (f : code_unit -> bool) (s : jsstring) :
  Forall (fun c => f c = true) s -> takeWhile f s = s.
Proof.
  induction 1 as [|c s Hc _ IH]; [reflexivity|]. cbn [takeWhile]. now rewrite Hc, IH.
Qed.

(** [String(n)] by cases. *)
Lemma string_of_Z_pos (p : positive) :
  string_of_Z (Z.pos p) = lit (NilEmpty.string_of_uint (Pos.to_uint p)).
Proof.
  unfold string_of_Z. cbn [Z.to_int NilZero.string_of_int NilZero.string_of_uint].
  pose proof (DecimalPos.Unsigned.to_uint_nonnil p) as Hn.
  unfold NilZero.string_of_uint. now destruct (Pos.to_uint p).
Qed.

Lemma string_of_Z_neg (p : positive) :
  string_of_Z (Z.neg p) = 45%N :: lit (NilEmpty.string_of_uint (Pos.to_uint p)).
Proof.
  unfold string_of_Z. cbn [Z.to_int NilZero.string_of_int].
  rewrite lit_String.
  pose proof (DecimalPos.Unsigned.to_uint_nonnil p) as Hn.
  unfold NilZero.string_of_uint. now destruct (Pos.to_uint p).
Qed.

Lemma digits_of_pos (p : positive) :
  digits_value (lit (NilEmpty.string_of_uint (Pos.to_uint p))) = Z.pos p.
Proof.
  rewrite digits_value_fold, fold_digits, DecimalPos.Unsigned.of_to. reflexivity.
Qed.

Lemma parse_digits (ds : jsstring) :
  ds <> [] -> Forall (fun c => is_digit c = true) ds ->
  parseInt10 ds = Some (digits_value ds)
  /\ parseInt10 (45%N :: ds) = Some (- digits_value ds).
Proof.
  intros Hne Hall. destruct ds as [|c r]; [contradiction|].
  pose proof Hall as Hall'. inversion Hall' as [|? ? Hc _]; subst.
  assert (Hws : is_ws c = false).
  { unfold is_digit in Hc. apply andb_true_iff in Hc as [H1 H2].
    apply N.leb_le in H1, H2. unfold is_ws.
    repeat match goal with
           | |- context [(?a <=? ?b)%N] => destruct (N.leb_spec a b)
           | |- context [(?a =? ?b)%N] => destruct (N.eqb_spec a b)
           end; try reflexivity; lia. }
  assert (Hsign : c <> 45%N /\ c <> 43%N).
  { unfold is_digit in Hc. apply andb_true_iff in Hc as [H1 H2].
    apply N.leb_le in H1, H2. lia. }
  split.
  - unfold parseInt10, trimStart. cbn [dropWhile]. rewrite Hws.
    match goal with
    | |- match ?M with pair _ _ => _ end = _ =>
        assert (Hm : M = (1, c :: r))
    end.
    { destruct Hsign as [H45 H43].
      destruct c as [|q]; [reflexivity|].
      repeat (destruct q as [q|q|]; try reflexivity); congruence. }
    rewrite Hm. rewrite (takeWhile_all is_digit (c :: r) Hall).
    f_equal; lia.
  - unfold parseInt10, trimStart. cbn [dropWhile is_ws].
    change (is_ws 45%N) with false. cbv iota.
    rewrite (takeWhile_all is_digit (c :: r) Hall). f_equal; lia.
Qed.

(** Reading back what [String(n)] printed gives [n]. *)
Lemma parseInt10_string_of_Z (n : Z) : parseInt10 (string_of_Z n) = Some n.
Proof.
  destruct n as [|p|p].
  - reflexivity.
  - rewrite string_of_Z_pos.
    destruct (parse_digits _ (printed_nonempty _ (DecimalPos.Unsigned.to_uint_nonnil p))
                (printed_digits _)) as [H _].
    rewrite H, digits_of_pos. reflexivity.
  - rewrite string_of_Z_neg.
    destruct (parse_digits _ (printed_nonempty _ (DecimalPos.Unsigned.to_uint_nonnil p))
                (printed_digits _)) as [_ H].
    rewrite H, digits_of_pos. reflexivity.
Qed.

(** A printed integer holds digits and at most a leading minus sign. *)
Lemma string_of_Z_chars (n : Z) (c : code_unit) :
  In c (string_of_Z n) -> c = 45%N \/ is_digit c = true.
Proof.
  destruct n as [|p|p].
  - cbn. intros [<-|[]]. now right.
  - rewrite string_of_Z_pos. intro H. right.
    pose proof (printed_digits (Pos.to_uint p)) as Hall.
    rewrite Forall_forall in Hall. now apply Hall.
  - rewrite string_of_Z_neg. intros [<-|H]; [now left|]. right.
    pose proof (printed_digits (Pos.to_uint p)) as Hall.
    rewrite Forall_forall in Hall. now apply Hall.
Qed.

Lemma string_of_Z_nonempty (n : Z) : string_of_Z n <> [].
Proof.
  destruct n as [|p|p].
  - discriminate.
  - rewrite string_of_Z_pos. apply printed_nonempty, DecimalPos.Unsigned.to_uint_nonnil.
  - rewrite string_of_Z_neg. discriminate.
Qed.

End DecimalStringFacts.

(* ====================================================================== *)
(** ** [escapeHtml] *)
(* ====================================================================== *)

Module EscapeFacts.
Import JSFacts MarkdownRules.

Lemma replace_all_app c w (a b : jsstring) :
  replace_all c w (a ++ b) = replace_all c w a ++ replace_all c w b.
Proof. unfold replace_all. apply flat_map_app. Qed.

Lemma escapeHtml_app (a b : jsstring) :
  escapeHtml (a ++ b) = escapeHtml a ++ escapeHtml b.
Proof. unfold escapeHtml. now rewrite !replace_all_app. Qed.

Lemma escapeHtml_cons (c : code_unit) (s : jsstring) :
  escapeHtml (c :: s) = escapeHtml [c] ++ escapeHtml s.
Proof. apply (escapeHtml_app [c] s). Qed.

(** One code unit at a time: the four special ones become entities, the
    others stay. *)
Lemma escapeHtml_unit (c : code_unit) :
  escapeHtml [c] =
  if (c =? 38)%N then lit "&amp;"
  else if (c =? 60)%N then lit "&lt;"
  else if (c =? 62)%N then lit "&gt;"
  else if (c =? 34)%N then lit "&quot;"
  else [c].
Proof.
  unfold escapeHtml, replace_all. cbn [flat_map app].
  destruct (N.eqb_spec c 38) as [->|H38]; [reflexivity|].
  cbn [flat_map app].
  destruct (N.eqb_spec c 60) as [->|H60]; [reflexivity|].
  cbn [flat_map app].
  destruct (N.eqb_spec c 62) as [->|H62]; [reflexivity|].
  cbn [flat_map app].
  destruct (N.eqb_spec c 34) as [->|H34]; reflexivity.
Qed.

Ltac unit_cases c :=
  rewrite (escapeHtml_unit c);
  destruct (N.eqb_spec c 38); [|destruct (N.eqb_spec c 60);
    [|destruct (N.eqb_spec c 62); [|destruct (N.eqb_spec c 34)]]].

(** X15. The output of [escapeHtml] holds no [<], no [>] and no double
    quote, and a string without [&], [<], [>] and double quote comes out
    unchanged. *)
Theorem escapeHtml_no_markup (s : jsstring) :
  ~ In 60%N (escapeHtml s) /\ ~ In 62%N (escapeHtml s) /\ ~ In 34%N (escapeHtml s)
  /\ (~ In 38%N s -> ~ In 60%N s -> ~ In 62%N s -> ~ In 34%N s -> escapeHtml s = s).
Proof.
  induction s as [|c s (IH1 & IH2 & IH3 & IH4)].
  - repeat split; try (intros []); reflexivity.
  - rewrite escapeHtml_cons.
    assert (Hu : ~ In 60%N (escapeHtml [c]) /\ ~ In 62%N (escapeHtml [c])
                 /\ ~ In 34%N (escapeHtml [c])).
    { unit_cases c; subst; cbn; repeat split; intro H;
        repeat (destruct H as [H|H]; [try discriminate; try congruence|]);
        try contradiction. }
    destruct Hu as (U1 & U2 & U3).
    split; [|split; [|split]].
    + intro H. apply in_app_or in H as [H|H]; contradiction.
    + intro H. apply in_app_or in H as [H|H]; contradiction.
    + intro H. apply in_app_or in H as [H|H]; contradiction.
    + intros N38 N60 N62 N34.
      rewrite IH4 by (intro H;
                      first [apply N38; now right | apply N60; now right
                            | apply N62; now right | apply N34; now right]).
      rewrite escapeHtml_unit.
      destruct (N.eqb_spec c 38) as [->|_]; [exfalso; apply N38; now left|].
      destruct (N.eqb_spec c 60) as [->|_]; [exfalso; apply N60; now left|].
      destruct (N.eqb_spec c 62) as [->|_]; [exfalso; apply N62; now left|].
      destruct (N.eqb_spec c 34) as [->|_]; [exfalso; apply N34; now left|].
      reflexivity.
Qed.

(** X16. [escapeHtml] loses nothing: two different strings never escape
    to the same string. *)
Theorem escapeHtml_injective (a b : jsstring) :
  escapeHtml a = escapeHtml b -> a = b.
Proof.
  revert b. induction a as [|x a IH]; intros [|y b] H.
  - reflexivity.
  - rewrite escapeHtml_cons in H. exfalso. revert H.
    unit_cases y; discriminate.
  - rewrite escapeHtml_cons in H. exfalso. revert H.
    unit_cases x; discriminate.
  - rewrite (escapeHtml_cons x), (escapeHtml_cons y) in H. revert H.
    unit_cases x; unit_cases y; subst; cbn [lit app map list_ascii_of_string];
      intro H; try discriminate H;
      try (injection H as H; f_equal; now apply IH);
      try (injection H as Hxy H; f_equal; [congruence | now apply IH]);
      try (injection H as Hxy H; congruence).
Qed.

Lemma escapeHtml_injective_witness : lit "a<b" = lit "a<b".
Proof. apply escapeHtml_injective. reflexivity. Defined.

End EscapeFacts.

(* ====================================================================== *)
(** ** Offsets, the preview and the range of relative times *)
(* ====================================================================== *)

Module TimeMore.
Import JSFacts Markdown TimeTokens RelativeTimeFacts.

(** Two digits, zero-padded, for a number below one hundred. *)
Lemma pad_two_digits (k : Z) :
  0 <= k < 100 ->
  padStart (string_of_Z k) 2 (lit "0") = [Z.to_N (48 + k / 10); Z.to_N (48 + k mod 10)].
Proof.
  intro Hk.
  assert (Hall : forallb
                   (fun n => str_eqb (padStart (string_of_Z (Z.of_nat n)) 2 (lit "0"))
                               [Z.to_N (48 + Z.of_nat n / 10);
                                Z.to_N (48 + Z.of_nat n mod 10)])
                   (seq 0 100) = true) by (vm_compute; reflexivity).
  rewrite forallb_forall in Hall.
  specialize (Hall (Z.to_nat k)). rewrite Z2Nat.id in Hall by lia.
  apply str_eqb_eq, Hall, in_seq. lia.
Qed.

(** X17. For an offset of less than a hundred hours either way,
    [formatOffset] yields exactly six code units: the sign ([+] for zero
    and above), the two digits of the whole hours, a colon, and the two
    digits of the remaining minutes. *)
Theorem formatOffset_shape (minutes : Z) :
  -6000 < minutes < 6000 ->
  let h := Z.abs minutes / 60 in
  let m := Z.abs minutes mod 60 in
  formatOffset minutes
  = [ (if 0 <=? minutes then 43%N else 45%N);
      Z.to_N (48 + h / 10); Z.to_N (48 + h mod 10); 58%N;
      Z.to_N (48 + m / 10); Z.to_N (48 + m mod 10) ].
Proof.
  intro Hr. cbv zeta. unfold formatOffset. cbv zeta.
  rewrite Z.rem_mod_nonneg by lia.
  pose proof (Z.mod_pos_bound (Z.abs minutes) 60 ltac:(lia)) as Hm.
  assert (Hh : 0 <= Z.abs minutes / 60 < 100).
  { split; [apply Z.div_pos; lia | apply Z.div_lt_upper_bound; lia]. }
  rewrite (pad_two_digits _ Hh), (pad_two_digits (Z.abs minutes mod 60)) by lia.
  destruct (0 <=? minutes); reflexivity.
Qed.

Lemma formatOffset_shape_witness :
  formatOffset 330 = lit "+05:30" /\ formatOffset (-480) = lit "-08:00".
Proof.
  split.
  - rewrite (formatOffset_shape 330) by lia. vm_compute. reflexivity.
  - rewrite (formatOffset_shape (-480)) by lia. vm_compute. reflexivity.
Defined.

(** X18. The preview of the timestamp builder shows what the parser
    renders for the same epoch, style and clock, for every style other
    than [R] and for [R] whenever the epoch is not the current second. *)
Theorem formatTimestampPreview_agrees
    (hostLocale : DateMethod -> DateOptions -> Z -> jsstring)
    (dateNow epoch : Z) (style : jsstring) :
  style <> lit "R" \/ epoch <> dateNow / 1000 ->
  formatTimestampPreview hostLocale dateNow epoch style
  = formatTimestamp hostLocale dateNow epoch style.
Proof.
  intro H. unfold formatTimestampPreview, formatTimestamp. cbv zeta.
  repeat match goal with
         | |- context [str_eqb style ?c] =>
             lazymatch c with
             | lit "R" => fail
             | _ => destruct (str_eqb style c); [reflexivity|]
             end
         end.
  destruct (str_eqb style (lit "R")) eqn:ER; [|reflexivity].
  apply str_eqb_eq in ER. destruct H as [H|H]; [contradiction|].
  now rewrite time_formatRelativeTime_spec, markdown_formatRelativeTime_spec.
Qed.

Lemma formatTimestampPreview_agrees_witness :
  formatTimestampPreview (fun _ _ _ => lit "date") 1700000000000 1700003600 (lit "R")
  = lit "in 1 hour".
Proof.
  rewrite formatTimestampPreview_agrees by (right; vm_compute; discriminate).
  vm_compute. reflexivity.
Defined.



(** X22. Away from the current second the relative-time formatter of
    the timestamp builder and the one of the parser give the same text. *)
Theorem relative_formatters_agree (dateNow epoch : Z) :
  epoch <> dateNow / 1000 ->
  Time.formatRelativeTime dateNow epoch = Markdown.formatRelativeTime dateNow epoch.
Proof.
  intro Hne.
  now rewrite time_formatRelativeTime_spec, markdown_formatRelativeTime_spec.
Qed.

Lemma relative_formatters_agree_witness :
  Time.formatRelativeTime 1700000000000 1699999000
  = Markdown.formatRelativeTime 1700000000000 1699999000.
Proof.
  apply relative_formatters_agree. vm_compute. discriminate.
Defined.

(** X23. Only the relative style reads the clock: for every style other
    than [R], known or not, [formatTimestamp] and [formatTimestampPreview]
    give the same text whatever the clock says. *)
Theorem absolute_styles_ignore_clock
    (hostLocale : DateMethod -> DateOptions -> Z -> jsstring)
    (now1 now2 epoch : Z) (style : jsstring) :
  style <> lit "R" ->
  formatTimestamp hostLocale now1 epoch style
  = formatTimestamp hostLocale now2 epoch style
  /\ formatTimestampPreview hostLocale now1 epoch style
     = formatTimestampPreview hostLocale now2 epoch style.
Proof.
  intro H. apply str_eqb_neq in H.
  unfold formatTimestamp, formatTimestampPreview. cbv zeta. rewrite H.
  split; reflexivity.
Qed.

Lemma absolute_styles_ignore_clock_witness :
  formatTimestamp (fun _ _ ms => string_of_Z ms) 0 1700000000 (lit "F")
  = formatTimestamp (fun _ _ ms => string_of_Z ms) 1700000000000 1700000000 (lit "F").
Proof.
  apply (absolute_styles_ignore_clock (fun _ _ ms => string_of_Z ms)
           0 1700000000000 1700000000 (lit "F")).
  vm_compute. discriminate.
Defined.

End TimeMore.

(* ====================================================================== *)
(** ** From the timestamp builder to the rendered preview *)
(* ====================================================================== *)

Module TimestampRoundTrip.
Import JSFacts SearchFacts LinesFacts DecimalStringFacts Markdown MarkdownRules TimeTokens.

Lemma number_has_no (n : Z) (c : code_unit) :
  c <> 45%N -> is_digit c = false -> ~ In c (string_of_Z n).
Proof.
  intros H1 H2 Hin. destruct (string_of_Z_chars n c Hin) as [E|E]; congruence.
Qed.

(** The rule on a well-delimited token: [body] holds no [>], its first
    field prints [epoch]. *)
Lemma rule_on_token
    (hostLocale : DateMethod -> DateOptions -> Z -> jsstring)
    (dateNow : Z) (before body after : jsstring) (pm : Z) (ts : list Token)
    (epoch : Z) (rest : list jsstring) :
  ~ In 62%N body ->
  split 58%N body = string_of_Z epoch :: rest ->
  let style := match rest with
               | p :: _ => if truthy p then p else lit "f"
               | [] => lit "f"
               end in
  let tok := lit "<t:" ++ body ++ lit ">" in
  discord_timestamp hostLocale dateNow
    {| src := before ++ tok ++ after; pos := len before; posMax := pm; tokens := ts |}
    false
  = (true,
     {| src := before ++ tok ++ after; pos := len before + len tok; posMax := pm;
        tokens := ts ++
          [ {| type := lit "discord_timestamp"; tag := lit "span"; nesting := 0;
               markup := tok;
               attrs := [ (lit "class", lit "discord-timestamp");
                          (lit "data-epoch", string_of_Z epoch);
                          (lit "data-style", style) ];
               content := formatTimestamp hostLocale dateNow epoch style |} ] |}).
Proof.
  intros Hgt Hsplit. cbv zeta.
  unfold discord_timestamp. cbn [src pos posMax tokens]. cbv zeta.
  assert (E1 : slice (before ++ (lit "<t:" ++ body ++ lit ">") ++ after)
                 (len before) (len before + 3) = lit "<t:").
  { rewrite <- !app_assoc. apply slice_middle; reflexivity. }
  rewrite E1. rewrite str_eqb_refl. cbn [negb].
  assert (E2 : indexOf (before ++ (lit "<t:" ++ body ++ lit ">") ++ after) (lit ">")
                 (len before + 3) = len before + 3 + len body).
  { replace (before ++ (lit "<t:" ++ body ++ lit ">") ++ after)
      with ((before ++ lit "<t:") ++ body ++ 62%N :: after)
      by (rewrite <- !app_assoc; reflexivity).
    replace (len before + 3) with (len (before ++ lit "<t:"))
      by (rewrite len_app; reflexivity).
    change (lit ">") with [62%N]. now apply indexOf_char_found. }
  rewrite E2.
  pose proof (len_nonneg before). pose proof (len_nonneg body).
  destruct (Z.eqb_spec (len before + 3 + len body) (-1)) as [E|_]; [lia|].
  assert (E3 : slice (before ++ (lit "<t:" ++ body ++ lit ">") ++ after)
                 (len before + 3) (len before + 3 + len body) = body).
  { replace (before ++ (lit "<t:" ++ body ++ lit ">") ++ after)
      with ((before ++ lit "<t:") ++ body ++ 62%N :: after)
      by (rewrite <- !app_assoc; reflexivity).
    apply slice_middle; rewrite len_app; reflexivity. }
  rewrite E3, Hsplit. cbn [nth_error].
  rewrite parseInt10_string_of_Z.
  assert (E4 : slice (before ++ (lit "<t:" ++ body ++ lit ">") ++ after)
                 (len before) (len before + 3 + len body + 1)
               = lit "<t:" ++ body ++ lit ">").
  { apply slice_middle; [reflexivity|]. rewrite !len_app.
    change (len (lit "<t:")) with 3. change (len (lit ">")) with 1. lia. }
  rewrite E4.
  replace (len (lit "<t:" ++ body ++ lit ">")) with (3 + len body + 1)
    by (rewrite !len_app; change (len (lit "<t:")) with 3;
        change (len (lit ">")) with 1; lia).
  replace (len before + (3 + len body + 1)) with (len before + 3 + len body + 1) by lia.
  destruct rest as [|p rest]; reflexivity.
Qed.

(** What [generateTimestampToken] writes between the delimiters. *)
Lemma generated_token_shape (epoch : Z) (style : option jsstring) :
  (forall st, style = Some st -> ~ In 58%N st /\ ~ In 62%N st) ->
  exists body rest,
    generateTimestampToken epoch style = lit "<t:" ++ body ++ lit ">"
    /\ ~ In 62%N body
    /\ split 58%N body = string_of_Z epoch :: rest
    /\ match rest with
       | p :: _ => if truthy p then p else lit "f"
       | [] => lit "f"
       end
       = match style with
         | Some st => if truthy st then st else lit "f"
         | None => lit "f"
         end.
Proof.
  intro Hst.
  assert (N58 : ~ In 58%N (string_of_Z epoch))
    by (apply number_has_no; [discriminate | reflexivity]).
  assert (N62 : ~ In 62%N (string_of_Z epoch))
    by (apply number_has_no; [discriminate | reflexivity]).
  assert (Plain : exists body rest,
             lit "<t:" ++ string_of_Z epoch ++ lit ">" = lit "<t:" ++ body ++ lit ">"
             /\ ~ In 62%N body
             /\ split 58%N body = string_of_Z epoch :: rest
             /\ match rest with
                | p :: _ => if truthy p then p else lit "f"
                | [] => lit "f"
                end = lit "f").
  { exists (string_of_Z epoch), []. repeat split; try assumption.
    now apply split_no_sep. }
  unfold generateTimestampToken.
  destruct style as [st|]; [|exact Plain].
  destruct (Hst st eq_refl) as [S58 S62].
  destruct (truthy st) eqn:T; cbn [andb]; [|exact Plain].
  destruct (str_eqb st (lit "f")) eqn:F; cbn [negb].
  - apply str_eqb_eq in F. subst st. exact Plain.
  - exists (string_of_Z epoch ++ lit ":" ++ st), [st]. split; [|split; [|split]].
    + now rewrite <- !app_assoc.
    + intro Hin. apply in_app_or in Hin as [Hin|Hin]; [now apply N62|].
      apply in_app_or in Hin as [Hin|Hin]; [|now apply S62].
      destruct Hin as [E|[]]; discriminate E.
    + change (lit ":" ++ st) with (58%N :: st).
      rewrite split_app by assumption. now rewrite split_no_sep.
    + now rewrite T.
Qed.

(** The rule on a generated token, anywhere in a message. *)
Lemma rule_on_generated
    (hostLocale : DateMethod -> DateOptions -> Z -> jsstring)
    (dateNow : Z) (before after : jsstring) (pm : Z) (ts : list Token)
    (epoch : Z) (style : option jsstring) :
  (forall st, style = Some st -> ~ In 58%N st /\ ~ In 62%N st) ->
  let tok := generateTimestampToken epoch style in
  let eff := match style with
             | Some st => if truthy st then st else lit "f"
             | None => lit "f"
             end in
  discord_timestamp hostLocale dateNow
    {| src := before ++ tok ++ after; pos := len before; posMax := pm; tokens := ts |}
    false
  = (true,
     {| src := before ++ tok ++ after; pos := len before + len tok; posMax := pm;
        tokens := ts ++
          [ {| type := lit "discord_timestamp"; tag := lit "span"; nesting := 0;
               markup := tok;
               attrs := [ (lit "class", lit "discord-timestamp");
                          (lit "data-epoch", string_of_Z epoch);
                          (lit "data-style", eff) ];
               content := formatTimestamp hostLocale dateNow epoch eff |} ] |}).
Proof.
  intro Hst. cbv zeta.
  destruct (generated_token_shape epoch style Hst) as (body & rest & -> & Hgt & Hsp & <-).
  exact (rule_on_token hostLocale dateNow before body after pm ts epoch rest Hgt Hsp).
Qed.

Lemma effective_style_truthy (style : option jsstring) :
  truthy match style with
         | Some st => if truthy st then st else lit "f"
         | None => lit "f"
         end = true.
Proof. destruct style as [[|c st]|]; reflexivity. Qed.

(** X20. A token written by [generateTimestampToken] for a whole number
    of seconds in the safe integer range, placed anywhere in a message,
    is read back by the timestamp rule: the rule matches at the token,
    moves the position just past it and pushes one token whose markup is
    the generated text, whose [data-epoch] attribute parses back to the
    epoch, and whose [data-style] attribute is the style given (["f"]
    when none or the empty one was given).  The style holds neither a
    colon nor [>], as all seven style codes do. *)
Theorem generated_token_parses_back
    (hostLocale : DateMethod -> DateOptions -> Z -> jsstring)
    (dateNow : Z) (before after : jsstring) (pm : Z) (ts : list Token)
    (epoch : Z) (style : option jsstring) :
  Z.abs epoch <= 9007199254740991 ->
  (forall st, style = Some st -> ~ In 58%N st /\ ~ In 62%N st) ->
  let tok := generateTimestampToken epoch style in
  let eff := match style with
             | Some st => if truthy st then st else lit "f"
             | None => lit "f"
             end in
  exists t epochText,
    discord_timestamp hostLocale dateNow
      {| src := before ++ tok ++ after; pos := len before; posMax := pm; tokens := ts |}
      false
    = (true,
       {| src := before ++ tok ++ after; pos := len before + len tok; posMax := pm;
          tokens := ts ++ [t] |})
    /\ type t = lit "discord_timestamp"
    /\ markup t = tok
    /\ attrGet (lit "data-epoch") (attrs t) = Some epochText
    /\ parseInt10 epochText = Some epoch
    /\ attrGet (lit "data-style") (attrs t) = Some eff
    /\ content t = formatTimestamp hostLocale dateNow epoch eff.
Proof.
  intros _ Hst. cbv zeta.
  eexists. exists (string_of_Z epoch). split.
  - exact (rule_on_generated hostLocale dateNow before after pm ts epoch style Hst).
  - cbn [type markup attrs content]. repeat split.
    apply parseInt10_string_of_Z.
Qed.

Lemma generated_token_parses_back_witness :
  fst (discord_timestamp (fun _ _ _ => lit "date") 1700000000000
         {| src := lit "at " ++ generateTimestampToken 1700003600 (Some (lit "R"))
                   ++ lit "!";
            pos := 3; posMax := 20; tokens := [] |} false) = true.
Proof.
  destruct (generated_token_parses_back (fun _ _ _ => lit "date") 1700000000000
              (lit "at ") (lit "!") 20 [] 1700003600 (Some (lit "R")))
    as (t & e & H & _).
  - vm_compute. discriminate.
  - intros st E. injection E as <-. split; intros [E|[]]; discriminate E.
  - change (len (lit "at ")) with 3 in H. rewrite H. reflexivity.
Defined.

(** X21. Rendering the token that the rule pushed for a generated
    timestamp gives the preview span: [data-epoch] carries the decimal
    epoch, [data-style] the effective style, [title] the generated token
    itself, unescaped, and the body is the timestamp formatted at the
    time of rendering, not the text formatted when the rule ran. *)
Theorem generated_token_renders
    (hostLocale : DateMethod -> DateOptions -> Z -> jsstring)
    (parseNow renderNow : Z) (before after : jsstring) (pm : Z) (ts : list Token)
    (epoch : Z) (style : option jsstring) :
  Z.abs epoch <= 9007199254740991 ->
  (forall st, style = Some st -> ~ In 58%N st /\ ~ In 62%N st) ->
  let tok := generateTimestampToken epoch style in
  let eff := match style with
             | Some st => if truthy st then st else lit "f"
             | None => lit "f"
             end in
  let parsed :=
    snd (discord_timestamp hostLocale parseNow
           {| src := before ++ tok ++ after; pos := len before; posMax := pm;
              tokens := ts |} false) in
  render_discord_timestamp hostLocale renderNow (tokens parsed) (length ts)
  = Some (lit "<span class=" ++ [34%N] ++ lit "discord-timestamp" ++ [34%N]
          ++ lit " data-epoch=" ++ [34%N] ++ string_of_Z epoch ++ [34%N]
          ++ lit " data-style=" ++ [34%N] ++ eff ++ [34%N]
          ++ lit " title=" ++ [34%N] ++ tok ++ [34%N]
          ++ lit ">" ++ formatTimestamp hostLocale renderNow epoch eff
          ++ lit "</span>").
Proof.
  intros _ Hst. cbv zeta.
  rewrite (rule_on_generated hostLocale parseNow before after pm ts epoch style Hst).
  cbn [snd tokens]. unfold render_discord_timestamp.
  rewrite nth_error_app2, Nat.sub_diag by lia. cbn [nth_error attrs markup].
  cbn [attrGet].
  change (str_eqb (lit "class") (lit "data-epoch")) with false.
  change (str_eqb (lit "class") (lit "data-style")) with false.
  change (str_eqb (lit "data-epoch") (lit "data-epoch")) with true.
  change (str_eqb (lit "data-epoch") (lit "data-style")) with false.
  change (str_eqb (lit "data-style") (lit "data-style")) with true.
  cbv iota.
  rewrite effective_style_truthy.
  destruct (string_of_Z epoch) eqn:E; [now apply string_of_Z_nonempty in E|].
  cbn [truthy]. rewrite <- E, parseInt10_string_of_Z. reflexivity.
Qed.

Lemma generated_token_renders_witness :
  render_discord_timestamp (fun _ _ _ => lit "date") 1700000060000
    (tokens (snd (discord_timestamp (fun _ _ _ => lit "date") 1700000000000
                    {| src := lit "at " ++ generateTimestampToken 1700003600 (Some (lit "R"))
                              ++ lit "!";
                       pos := 3; posMax := 20; tokens := [] |} false))) 0
  = Some (lit "<span class=" ++ [34%N] ++ lit "discord-timestamp" ++ [34%N]
          ++ lit " data-epoch=" ++ [34%N] ++ lit "1700003600" ++ [34%N]
          ++ lit " data-style=" ++ [34%N] ++ lit "R" ++ [34%N]
          ++ lit " title=" ++ [34%N] ++ lit "<t:1700003600:R>" ++ [34%N]
          ++ lit ">" ++ lit "in 59 minutes" ++ lit "</span>").
Proof.
  pose proof (generated_token_renders (fun _ _ _ => lit "date")
                1700000000000 1700000060000 (lit "at ") (lit "!") 20 []
                1700003600 (Some (lit "R"))) as H.
  cbv zeta in H. change (len (lit "at ")) with 3 in H.
  change (@length Token []) with 0%nat in H.
  rewrite H.
  - vm_compute. reflexivity.
  - vm_compute. discriminate.
  - intros st E. injection E as <-. split; intros [E|[]]; discriminate E.
Defined.

End TimestampRoundTrip.
